(** * GPT-2 pretraining script: a shallow embedding of [train_gpt2.py]

    One module per part of the script: the sharded data loader
    ([DataLoaderLite]), the learning-rate schedule ([get_lr]), the module
    tree and its initialisation ([GPT._init_weights]), the distributed
    wrapping and the collectives of a training step, the parameter objects
    with the tied embedding, the forward pass ([GPT.forward] and its
    blocks), and the gradient accumulation loop.

    Integers of the script are [nat] (sizes, cursors, token ids); Python
    floats are idealised as real numbers, except in the module on the
    schedule in double precision, where they are IEEE 754 doubles; every
    [assert] and every library call that can raise is an explicit
    [option] or error result. *)

From Stdlib Require Import Reals Lra Lia ZArith String.
From Stdlib Require Floats.
From stdpp Require Import base option list gmap strings pretty.

(** ** The sharded data loader: [DataLoaderLite] *)

Module Loader.

(** A shard file holds a flat array of token ids; [shards] is the sorted
    list of the split's files, each given by its contents (what
    [load_tokens] returns for it). *)
Record DataLoaderLite := mkLoader {
  B : nat;
  T : nat;
  process_rank : nat;
  num_processes : nat;
  shards : list (list nat);
  current_shard : nat;
  tokens : list nat;
  current_position : nat
}.

(** [load_tokens(self.shards[i])]. *)
Definition load_tokens (sh : list (list nat)) (i : nat) : list nat :=
  default [] (sh !! i).

(** [t.view(B,T)] of a flat tensor: fails unless it holds [B*T] elements;
    row [b] is the slice [t[b*T : (b+1)*T]]. *)
Definition rows (b t : nat) (l : list nat) : list (list nat) :=
  map (fun i => take t (drop (i * t) l)) (seq 0 b).

Definition view (b t : nat) (l : list nat) : option (list (list nat)) :=
  if decide (length l = b * t) then Some (rows b t l) else None.

(** [reset]: lines 208-211. *)
Definition reset (d : DataLoaderLite) : DataLoaderLite :=
  mkLoader (B d) (T d) (process_rank d) (num_processes d) (shards d)
    0 (load_tokens (shards d) 0) (B d * T d * process_rank d).

(** [__init__]: lines 179-207, with the directory listing replaced by its
    result; the [assert len(shards) > 0] is the [None] case. *)
Definition init (b t rank nproc : nat) (sh : list (list nat))
  : option DataLoaderLite :=
  if decide (0 < length sh)
  then Some (reset (mkLoader b t rank nproc sh 0 (load_tokens sh 0) (b * t * rank)))
  else None.

(** The slice [self.tokens[pos : pos+B*T+1]] (Python slices clamp). *)
Definition read_buf (d : DataLoaderLite) : list nat :=
  take (B d * T d + 1) (drop (current_position d) (tokens d)).

(** The cursor update of lines 217-221. *)
Definition advance (d : DataLoaderLite) : DataLoaderLite :=
  let pos' := current_position d + B d * T d * num_processes d in
  if decide (length (tokens d) < pos' + (B d * T d * num_processes d + 1))
  then
    let s := (current_shard d + 1) `mod` length (shards d) in
    mkLoader (B d) (T d) (process_rank d) (num_processes d) (shards d)
      s (load_tokens (shards d) s) (B d * T d * process_rank d)
  else
    mkLoader (B d) (T d) (process_rank d) (num_processes d) (shards d)
      (current_shard d) (tokens d) pos'.

(** [next_batch]: lines 212-222.  [None] is the error raised by [view]
    when the slice is short. *)
Definition next_batch (d : DataLoaderLite)
  : option ((list (list nat) * list (list nat)) * DataLoaderLite) :=
  let buf := read_buf d in
  x ← view (B d) (T d) (take (length buf - 1) buf);
  y ← view (B d) (T d) (drop 1 buf);
  Some ((x, y), advance d).

(** [n] successive calls of [next_batch], keeping only the loader. *)
Fixpoint run (n : nat) (d : DataLoaderLite) : option DataLoaderLite :=
  match n with
  | O => Some d
  | S n' => r ← next_batch d; run n' (snd r)
  end.

(** The positions of the current shard covered by the next read
    ([B*T+1] tokens) and by its input part (the first [B*T]). *)
Definition read_window (d : DataLoaderLite) : list nat :=
  seq (current_position d) (B d * T d + 1).

Definition input_window (d : DataLoaderLite) : list nat :=
  seq (current_position d) (B d * T d).

(** The read finds a full window in the current shard. *)
Definition full_window (d : DataLoaderLite) : Prop :=
  current_position d + B d * T d + 1 <= length (tokens d).

(** The loader with its cursor moved to [p]. *)
Definition at_position (d : DataLoaderLite) (p : nat) : DataLoaderLite :=
  mkLoader (B d) (T d) (process_rank d) (num_processes d) (shards d)
    (current_shard d) (tokens d) p.

(** The loader after a wrap to the next shard. *)
Definition wrapped (d : DataLoaderLite) : DataLoaderLite :=
  let s := (current_shard d + 1) `mod` length (shards d) in
  mkLoader (B d) (T d) (process_rank d) (num_processes d) (shards d)
    s (load_tokens (shards d) s) (B d * T d * process_rank d).

(** The structural invariant of a loader built by [init]: the cached
    [tokens] are those of the current shard, and every shard is at least
    [B*T*num_processes + 1] tokens long. *)
Definition long_shards (b t nproc : nat) (sh : list (list nat)) : Prop :=
  Forall (fun s => b * t * nproc + 1 <= length s) sh.

Definition loader_inv (d : DataLoaderLite) : Prop :=
  current_shard d < length (shards d) /\
  tokens d = load_tokens (shards d) (current_shard d) /\
  process_rank d < num_processes d /\
  long_shards (B d) (T d) (num_processes d) (shards d) /\
  full_window d.

(** Every cursor a rank ever holds is its base offset plus a whole number
    of strides: [B*T*rank + j * (B*T*num_processes)]. *)
Definition on_stride (d : DataLoaderLite) : Prop :=
  exists j, current_position d
            = B d * T d * process_rank d + j * (B d * T d * num_processes d).

(** What [next_batch] leaves unchanged. *)
Definition same_config (d d' : DataLoaderLite) : Prop :=
  B d' = B d /\ T d' = T d /\ process_rank d' = process_rank d /\
  num_processes d' = num_processes d /\ shards d' = shards d.

Lemma view_Some b t l :
  length l = b * t ->
  view b t l = Some (rows b t l).
Proof. intros H. unfold view. by rewrite decide_True. Qed.

Lemma read_buf_length d :
  full_window d -> length (read_buf d) = B d * T d + 1.
Proof.
  unfold full_window, read_buf. intros H.
  rewrite length_take, length_drop. lia.
Qed.

(** What one call returns when the window is full. *)
Lemma next_batch_full d :
  full_window d ->
  next_batch d =
    Some ((rows (B d) (T d) (take (B d * T d) (drop (current_position d) (tokens d))),
           rows (B d) (T d) (take (B d * T d) (drop (current_position d + 1) (tokens d)))),
          advance d).
Proof.
  intros H. pose proof (read_buf_length d H) as Hlen.
  unfold next_batch. rewrite Hlen.
  replace (B d * T d + 1 - 1) with (B d * T d) by lia.
  assert (Hx : take (B d * T d) (read_buf d)
               = take (B d * T d) (drop (current_position d) (tokens d))).
  { unfold read_buf. rewrite take_take. f_equal. lia. }
  assert (Hy : drop 1 (read_buf d)
               = take (B d * T d) (drop (current_position d + 1) (tokens d))).
  { unfold read_buf. replace (B d * T d + 1) with (1 + B d * T d) by lia.
    rewrite <- take_drop_commute, drop_drop. do 2 f_equal; lia. }
  rewrite Hx, Hy.
  unfold full_window in H.
  rewrite !view_Some by (rewrite length_take, length_drop; lia).
  reflexivity.
Qed.

Lemma advance_fits d :
  current_position d + B d * T d * num_processes d
    + (B d * T d * num_processes d + 1) <= length (tokens d) ->
  advance d = at_position d (current_position d + B d * T d * num_processes d).
Proof. intros H. unfold advance. rewrite decide_False by lia. reflexivity. Qed.

Lemma advance_wraps d :
  length (tokens d) < current_position d + B d * T d * num_processes d
    + (B d * T d * num_processes d + 1) ->
  advance d = wrapped d.
Proof. intros H. unfold advance. rewrite decide_True by lia. reflexivity. Qed.

(** As long as the window after next still fits, [n] calls move the cursor
    by [n * B*T*num_processes] and change nothing else. *)
Lemma run_no_wrap n : forall d,
  1 <= num_processes d ->
  full_window d ->
  (n = 0 \/ current_position d + n * (B d * T d * num_processes d)
            + (B d * T d * num_processes d + 1) <= length (tokens d)) ->
  run n d = Some (at_position d (current_position d + n * (B d * T d * num_processes d))).
Proof.
  induction n as [|n IH]; intros d HW Hfull Hfit.
  - simpl. destruct d; unfold at_position; simpl. do 2 f_equal. lia.
  - destruct Hfit as [?|Hfit]; [lia|].
    simpl. rewrite next_batch_full by done. simpl.
    rewrite advance_fits by lia.
    rewrite IH.
    + unfold at_position; simpl. do 2 f_equal. lia.
    + done.
    + unfold full_window, at_position in *; simpl. nia.
    + right. unfold at_position; simpl. lia.
Qed.

Lemma run_app a : forall b d, run (a + b) d = run a d ≫= run b.
Proof.
  induction a as [|a IH]; intros b d; simpl; [done|].
  destruct (next_batch d); simpl; [apply IH|done].
Qed.

Lemma run_1 d : run 1 d = snd <$> next_batch d.
Proof. simpl. by destruct (next_batch d). Qed.

Lemma long_shards_load b t nproc sh i :
  long_shards b t nproc sh -> i < length sh ->
  b * t * nproc + 1 <= length (load_tokens sh i).
Proof.
  intros Hl Hi. unfold load_tokens.
  destruct (lookup_lt_is_Some_2 sh i Hi) as [s Hs]. rewrite Hs. simpl.
  exact (proj1 (Forall_lookup _ sh) Hl i s Hs).
Qed.

Lemma rank_window_fits b t rank nproc n :
  rank < nproc -> b * t * nproc + 1 <= n -> b * t * rank + b * t + 1 <= n.
Proof. intros Hr Hn. nia. Qed.

Lemma loader_inv_init b t rank nproc sh d :
  rank < nproc -> long_shards b t nproc sh ->
  init b t rank nproc sh = Some d -> loader_inv d.
Proof.
  intros Hr Hl Hi. unfold init in Hi.
  destruct (decide (0 < length sh)) as [Hpos|]; [|done].
  injection Hi as <-. unfold loader_inv, reset, full_window; simpl.
  repeat split; try done.
  apply rank_window_fits with nproc; [done|]. by apply long_shards_load.
Qed.

Lemma loader_inv_advance d : loader_inv d -> loader_inv (advance d).
Proof.
  intros (Hs & Ht & Hr & Hl & Hf). unfold advance.
  destruct (decide _) as [Hwrap|Hfit]; unfold loader_inv, full_window; simpl.
  - assert (Hm : (current_shard d + 1) `mod` length (shards d) < length (shards d))
      by (apply Nat.mod_upper_bound; lia).
    repeat split; try done.
    apply rank_window_fits with (num_processes d); [done|].
    by apply long_shards_load.
  - repeat split; try done. nia.
Qed.

Lemma loader_inv_run n : forall d,
  loader_inv d -> exists d', run n d = Some d' /\ loader_inv d'.
Proof.
  induction n as [|n IH]; intros d Hinv; simpl.
  - eauto.
  - rewrite next_batch_full by apply Hinv. simpl.
    apply IH, loader_inv_advance, Hinv.
Qed.

Lemma on_stride_advance d : on_stride d -> on_stride (advance d).
Proof.
  intros [j Hj]. unfold advance, on_stride.
  destruct (decide _); simpl.
  - exists 0. lia.
  - exists (S j). lia.
Qed.

Lemma same_config_advance d : same_config d (advance d).
Proof. unfold advance, same_config. destruct (decide _); simpl; done. Qed.

Lemma next_batch_advance d r : next_batch d = Some r -> snd r = advance d.
Proof.
  unfold next_batch. intros H.
  destruct (view _ _ (take _ _)); simpl in H; [|done].
  destruct (view _ _ (drop _ _)); simpl in H; [|done].
  by injection H as <-.
Qed.

Lemma run_on_stride n : forall d d',
  on_stride d -> run n d = Some d' -> on_stride d' /\ same_config d d'.
Proof.
  induction n as [|n IH]; intros d d' Hs Hrun; simpl in Hrun.
  - injection Hrun as <-. by split.
  - destruct (next_batch d) as [r|] eqn:Hnb; simpl in Hrun; [|done].
    apply next_batch_advance in Hnb. rewrite Hnb in Hrun.
    destruct (IH _ _ (on_stride_advance d Hs) Hrun) as [H1 H2]. split; [done|].
    pose proof (same_config_advance d) as H3.
    unfold same_config in *. intuition congruence.
Qed.

Lemma init_on_stride b t rank nproc sh d :
  init b t rank nproc sh = Some d ->
  on_stride d /\ B d = b /\ T d = t /\ process_rank d = rank /\
  num_processes d = nproc /\ shards d = sh /\
  current_shard d = 0 /\ tokens d = load_tokens sh 0 /\
  current_position d = b * t * rank.
Proof.
  unfold init. destruct (decide _); [|done]. intros H. injection H as <-.
  unfold reset; simpl. repeat split; try done. exists 0; simpl. lia.
Qed.

(** Two cursors on the strides of distinct ranks sit in distinct blocks of
    [bt] positions. *)
Lemma distinct_rank_blocks (w r1 r2 j1 j2 : nat) :
  r1 < w -> r2 < w -> r1 <> r2 ->
  r1 + j1 * w + 1 <= r2 + j2 * w \/ r2 + j2 * w + 1 <= r1 + j1 * w.
Proof.
  intros H1 H2 Hne.
  destruct (decide (j1 = j2)) as [->|Hj]; [lia|].
  destruct (decide (j1 < j2)); [left|right]; nia.
Qed.

Lemma stride_blocks (bt w r1 r2 j1 j2 : nat) :
  r1 < w -> r2 < w -> r1 <> r2 ->
  bt * r1 + j1 * (bt * w) + bt <= bt * r2 + j2 * (bt * w) \/
  bt * r2 + j2 * (bt * w) + bt <= bt * r1 + j1 * (bt * w).
Proof.
  intros H1 H2 Hne.
  destruct (distinct_rank_blocks w r1 r2 j1 j2 H1 H2 Hne) as [H|H]; [left|right].
  - replace (bt * r1 + j1 * (bt * w) + bt) with (bt * (r1 + j1 * w + 1)) by lia.
    replace (bt * r2 + j2 * (bt * w)) with (bt * (r2 + j2 * w)) by lia.
    by apply Nat.mul_le_mono_l.
  - replace (bt * r2 + j2 * (bt * w) + bt) with (bt * (r2 + j2 * w + 1)) by lia.
    replace (bt * r1 + j1 * (bt * w)) with (bt * (r1 + j1 * w)) by lia.
    by apply Nat.mul_le_mono_l.
Qed.

(** C10: for a loader of rank [rank < nproc] over non-empty shards that
    each hold at least [B*T*nproc + 1] tokens, construction succeeds and
    every call of [next_batch], after any number of earlier calls and shard
    transitions, is made with [cursor + B*T + 1 <= len(tokens)] and so
    returns a batch (the [view] to [B,T] does not fail). *)
Theorem next_batch_window_always_full (b t rank nproc : nat) (sh : list (list nat)) :
  rank < nproc ->
  0 < length sh ->
  long_shards b t nproc sh ->
  exists d0, init b t rank nproc sh = Some d0 /\
    forall n, exists d,
      run n d0 = Some d /\
      current_position d + B d * T d + 1 <= length (tokens d) /\
      is_Some (next_batch d).
Proof.
  intros Hr Hsh Hl.
  destruct (init b t rank nproc sh) as [d0|] eqn:Hi.
  2:{ unfold init in Hi. by rewrite decide_True in Hi. }
  exists d0. split; [done|]. intros n.
  destruct (loader_inv_run n d0 (loader_inv_init _ _ _ _ _ _ Hr Hl Hi)) as (d & Hrun & Hinv).
  exists d. split; [done|].
  assert (Hf : full_window d) by apply Hinv.
  split; [exact Hf|]. rewrite next_batch_full by done. eauto.
Qed.

Lemma next_batch_window_always_full_witness :
  exists d0, init 2 4 1 2 [seq 0 17; seq 0 40] = Some d0 /\
    forall n, exists d,
      run n d0 = Some d /\
      current_position d + B d * T d + 1 <= length (tokens d) /\
      is_Some (next_batch d).
Proof.
  apply (next_batch_window_always_full 2 4 1 2 [seq 0 17; seq 0 40]).
  - lia.
  - simpl. lia.
  - unfold long_shards. repeat constructor; simpl; lia.
Defined.

(** C5: the single-worker scenario (one shard of 10,000 tokens, B=2, T=4):
    the first call returns [tokens[0:8]] and [tokens[1:9]] as [2,4] arrays
    and leaves the cursor at 8, the second reads from 8 and leaves it at 16,
    the cursor is [8*n] after [n <= 1248] calls, and call 1249 wraps to
    shard 0 with the cursor back at 0.  In general a call made with a full
    window returns the [B*T] tokens at the cursor and the same window
    shifted by one, and moves the cursor by [B*T*num_processes] (or, when
    the window after that does not fit, to the rank's base offset in the
    next shard). *)
Theorem next_batch_scenario (toks : list nat) :
  length toks = 100 * 100 ->
  exists d0 d1 d2,
    init 2 4 0 1 [toks] = Some d0 /\
    next_batch d0
      = Some ((rows 2 4 (take 8 toks), rows 2 4 (take 8 (drop 1 toks))), d1) /\
    current_shard d1 = 0 /\ current_position d1 = 8 /\
    next_batch d1
      = Some ((rows 2 4 (take 8 (drop 8 toks)), rows 2 4 (take 8 (drop 9 toks))), d2) /\
    current_shard d2 = 0 /\ current_position d2 = 16 /\
    (forall n, n <= 1248 ->
       exists d, run n d0 = Some d /\ current_shard d = 0 /\ current_position d = 8 * n) /\
    run 1249 d0 = Some d0 /\
    (forall d, full_window d ->
       exists d',
         next_batch d
           = Some ((rows (B d) (T d) (take (B d * T d) (drop (current_position d) (tokens d))),
                    rows (B d) (T d) (take (B d * T d) (drop (current_position d + 1) (tokens d)))),
                   d') /\
         (current_position d + B d * T d * num_processes d
            + (B d * T d * num_processes d + 1) <= length (tokens d) ->
          d' = at_position d (current_position d + B d * T d * num_processes d)) /\
         (length (tokens d) < current_position d + B d * T d * num_processes d
            + (B d * T d * num_processes d + 1) ->
          d' = wrapped d)).
Proof.
  intros Hlen.
  set (d0 := mkLoader 2 4 0 1 [toks] 0 toks 0).
  assert (Hfull : forall p, p + 9 <= 100 * 100 -> full_window (at_position d0 p)).
  { intros p Hp. unfold full_window, at_position, d0.
    cbn [B T tokens current_position]. lia. }
  assert (Hstep : forall p, p + 17 <= 100 * 100 ->
            advance (at_position d0 p) = at_position d0 (p + 8)).
  { intros p Hp. rewrite advance_fits.
    - unfold at_position, d0. cbn [B T num_processes current_position].
      do 2 f_equal.
    - unfold at_position, d0.
      cbn [B T num_processes tokens current_position]. lia. }
  assert (Hrun : forall n, n <= 1248 -> run n d0 = Some (at_position d0 (8 * n))).
  { intros n Hn. rewrite run_no_wrap.
    - unfold at_position, d0. cbn [B T num_processes current_position].
      do 2 f_equal. lia.
    - unfold d0. cbn [num_processes]. lia.
    - apply (Hfull 0). lia.
    - right. unfold d0. cbn [B T num_processes tokens current_position]. lia. }
  exists d0, (at_position d0 8), (at_position d0 16).
  split; [reflexivity|].
  split.
  { assert (H0 : advance d0 = at_position d0 8) by (apply (Hstep 0); lia).
    rewrite (next_batch_full d0) by (apply (Hfull 0); lia).
    by rewrite H0. }
  do 2 (split; [reflexivity|]).
  split.
  { rewrite (next_batch_full (at_position d0 8)) by (apply Hfull; lia).
    by rewrite (Hstep 8) by lia. }
  do 2 (split; [reflexivity|]).
  split.
  { intros n Hn. exists (at_position d0 (8 * n)). by rewrite Hrun. }
  split.
  { change 1249 with (1248 + 1). rewrite run_app, Hrun by lia.
    cbn [mbind option_bind]. rewrite run_1.
    rewrite next_batch_full by (apply Hfull; lia).
    cbn [fmap option_fmap option_map snd].
    rewrite advance_wraps.
    - reflexivity.
    - unfold at_position, d0.
      cbn [B T num_processes tokens current_position]. lia. }
  intros d Hf. exists (advance d). split; [by apply next_batch_full|].
  split; [apply advance_fits | apply advance_wraps].
Qed.

Lemma next_batch_scenario_witness :
  exists d0 d1, init 2 4 0 1 [replicate (100 * 100) 7] = Some d0 /\
    next_batch d0
      = Some (([[7; 7; 7; 7]; [7; 7; 7; 7]], [[7; 7; 7; 7]; [7; 7; 7; 7]]), d1) /\
    current_position d1 = 8 /\ run 1249 d0 = Some d0.
Proof.
  destruct (next_batch_scenario (replicate (100 * 100) 7) (length_replicate _ _))
    as (d0 & d1 & d2 & Hi & H1 & _ & Hp & _ & _ & _ & _ & Hw & _).
  exists d0, d1. repeat split; try done.
Defined.

(** C6, as stated, fails: with two workers, B=1 and T=2, the first reads
    of rank 0 and rank 1 are [tokens[0:3]] and [tokens[2:5]]; position 2 is
    in both (it is rank 0's last target and rank 1's first input). *)
Lemma read_windows_of_adjacent_ranks_overlap :
  exists d0 d1 d0' d1',
    init 1 2 0 2 [seq 10 20] = Some d0 /\
    init 1 2 1 2 [seq 10 20] = Some d1 /\
    read_window d0 = [0; 1; 2] /\ read_window d1 = [2; 3; 4] /\
    2 ∈ read_window d0 /\ 2 ∈ read_window d1 /\
    next_batch d0 = Some (([[10; 11]], [[11; 12]]), d0') /\
    next_batch d1 = Some (([[12; 13]], [[13; 14]]), d1').
Proof.
  eexists _, _, _, _. vm_compute.
  repeat split; try reflexivity; set_solver.
Qed.

(** C6, amended: the cursor of rank [r] is always [r*B*T] plus a whole
    number of strides [B*T*W], and it is [r*B*T + n*B*T*W] at its [n]-th
    call while the loader has not wrapped; at the same [n], the input
    windows (the first [B*T] positions of each read) of two distinct ranks
    are disjoint, and their [B*T+1]-token reads share at most one position. *)
Theorem input_windows_of_distinct_ranks_disjoint
    (b t nproc r1 r2 n : nat) (sh : list (list nat)) (d1 d2 e1 e2 : DataLoaderLite) :
  r1 < nproc -> r2 < nproc -> r1 <> r2 ->
  init b t r1 nproc sh = Some d1 -> init b t r2 nproc sh = Some d2 ->
  run n d1 = Some e1 -> run n d2 = Some e2 ->
  (exists j, current_position e1 = r1 * b * t + j * (b * t * nproc)) /\
  (n = 0 \/ r1 * b * t + n * (b * t * nproc) + (b * t * nproc + 1)
              <= length (load_tokens sh 0) ->
   current_position e1 = r1 * b * t + n * (b * t * nproc)) /\
  (forall p, p ∈ input_window e1 -> p ∉ input_window e2) /\
  (forall p q, p ∈ read_window e1 -> p ∈ read_window e2 ->
               q ∈ read_window e1 -> q ∈ read_window e2 -> p = q).
Proof.
  intros H1 H2 Hne Hi1 Hi2 Hr1 Hr2.
  destruct (init_on_stride _ _ _ _ _ _ Hi1)
    as (Hs1 & HB1 & HT1 & HR1 & HW1 & HS1 & HC1 & HK1 & HP1).
  destruct (init_on_stride _ _ _ _ _ _ Hi2)
    as (Hs2 & HB2 & HT2 & HR2 & HW2 & HS2 & HC2 & HK2 & HP2).
  destruct (run_on_stride _ _ _ Hs1 Hr1) as ([j1 Hj1] & Hb1 & Ht1 & Hk1 & Hw1 & _).
  destruct (run_on_stride _ _ _ Hs2 Hr2) as ([j2 Hj2] & Hb2 & Ht2 & Hk2 & Hw2 & _).
  rewrite Hb1, Ht1, Hk1, Hw1, HB1, HT1, HR1, HW1 in Hj1.
  rewrite Hb2, Ht2, Hk2, Hw2, HB2, HT2, HR2, HW2 in Hj2.
  pose proof (stride_blocks (b * t) nproc r1 r2 j1 j2 H1 H2 Hne) as Hblk.
  split; [exists j1; lia|].
  split.
  { intros [->|Hfit].
    - simpl in Hr1. injection Hr1 as <-. lia.
    - rewrite run_no_wrap in Hr1.
      + injection Hr1 as <-. unfold at_position.
        cbn [current_position]. rewrite HP1, HB1, HT1, HW1. lia.
      + lia.
      + unfold full_window. rewrite HP1, HB1, HT1, HK1. nia.
      + right. rewrite HP1, HB1, HT1, HW1, HK1. lia. }
  unfold input_window, read_window.
  rewrite Hb1, Ht1, Hb2, Ht2, HB1, HT1, HB2, HT2.
  split.
  - intros p Hp1 Hp2. apply elem_of_seq in Hp1, Hp2. lia.
  - intros p q Hp1 Hp2 Hq1 Hq2. apply elem_of_seq in Hp1, Hp2, Hq1, Hq2. lia.
Qed.

Lemma input_windows_of_distinct_ranks_disjoint_witness :
  exists e1 e2,
    run 3 (mkLoader 1 2 0 2 [seq 10 20] 0 (seq 10 20) 0) = Some e1 /\
    run 3 (mkLoader 1 2 1 2 [seq 10 20] 0 (seq 10 20) 2) = Some e2 /\
    current_position e1 = 0 * 1 * 2 + 3 * (1 * 2 * 2) /\
    (forall p, p ∈ input_window e1 -> p ∉ input_window e2).
Proof.
  destruct (run 3 (mkLoader 1 2 0 2 [seq 10 20] 0 (seq 10 20) 0)) as [e1|] eqn:H1;
    [|discriminate H1].
  destruct (run 3 (mkLoader 1 2 1 2 [seq 10 20] 0 (seq 10 20) 2)) as [e2|] eqn:H2;
    [|discriminate H2].
  exists e1, e2.
  destruct (input_windows_of_distinct_ranks_disjoint 1 2 2 0 1 3 [seq 10 20]
              _ _ e1 e2 ltac:(lia) ltac:(lia) ltac:(lia) eq_refl eq_refl H1 H2)
    as (_ & Hpos & Hdisj & _).
  repeat split; try done. apply Hpos. right. simpl. lia.
Defined.

End Loader.

(** ** The learning-rate schedule: [get_lr] *)

Module Schedule.

Local Open Scope R_scope.

(** The module-level constants of lines 275-278. *)
Definition max_lr : R := 6e-4.
Definition min_lr : R := 0.1 * max_lr.
Definition warm_up_steps : Z := 715.
Definition max_steps : Z := 19073.

(** [get_lr], lines 279-287.  [None] is the failure of
    [assert 0 <= decay_ratio <= 1]. *)
Definition get_lr (step : Z) : option R :=
  if (step <? warm_up_steps)%Z then
    Some ((IZR step + 1) * max_lr / IZR warm_up_steps)
  else if (max_steps <? step)%Z then
    Some min_lr
  else
    let decay_ratio :=
      (IZR step - IZR warm_up_steps) / (IZR max_steps - IZR warm_up_steps) in
    if Rle_dec 0 decay_ratio then
      if Rle_dec decay_ratio 1 then
        let coeff := 0.5 * (1.0 + cos (PI * decay_ratio)) in
        Some (min_lr + coeff * (max_lr - min_lr))
      else None
    else None.

(** The decay phase, with the assertion discharged. *)
Definition decay_ratio (step : Z) : R :=
  (IZR step - IZR warm_up_steps) / (IZR max_steps - IZR warm_up_steps).

(** [lr_le s t]: the schedule is defined at both steps and does not
    decrease from [s] to [t]. *)
Definition lr_le (s t : Z) : Prop :=
  exists a b, get_lr s = Some a /\ get_lr t = Some b /\ a <= b.

Lemma decay_ratio_bounds step :
  (warm_up_steps <= step <= max_steps)%Z -> 0 <= decay_ratio step <= 1.
Proof.
  unfold decay_ratio, warm_up_steps, max_steps. intros [H1 H2].
  apply IZR_le in H1, H2.
  split.
  - apply Rmult_le_pos; [lra|]. apply Rlt_le, Rinv_0_lt_compat. lra.
  - apply (Rmult_le_reg_r (19073 - 715)); [lra|]. field_simplify; lra.
Qed.

Lemma decay_ratio_mono s t :
  (s <= t)%Z -> decay_ratio s <= decay_ratio t.
Proof.
  unfold decay_ratio, warm_up_steps, max_steps. intros H. apply IZR_le in H.
  apply Rmult_le_compat_r; [|lra]. apply Rlt_le, Rinv_0_lt_compat. lra.
Qed.

Lemma get_lr_warmup step :
  (step < warm_up_steps)%Z ->
  get_lr step = Some ((IZR step + 1) * max_lr / IZR warm_up_steps).
Proof.
  intros H. unfold get_lr. apply Z.ltb_lt in H. by rewrite H.
Qed.

Lemma get_lr_floor step :
  (max_steps < step)%Z -> get_lr step = Some min_lr.
Proof.
  intros H. unfold get_lr.
  assert (H1 : (step <? warm_up_steps)%Z = false)
    by (apply Z.ltb_ge; unfold warm_up_steps, max_steps in *; lia).
  apply Z.ltb_lt in H. by rewrite H1, H.
Qed.

Lemma get_lr_decay step :
  (warm_up_steps <= step <= max_steps)%Z ->
  get_lr step
  = Some (min_lr + 0.5 * (1.0 + cos (PI * decay_ratio step)) * (max_lr - min_lr)).
Proof.
  intros H. pose proof (decay_ratio_bounds step H) as [Hlo Hhi].
  unfold get_lr.
  assert (H1 : (step <? warm_up_steps)%Z = false) by (apply Z.ltb_ge; lia).
  assert (H2 : (max_steps <? step)%Z = false) by (apply Z.ltb_ge; lia).
  rewrite H1, H2. fold (decay_ratio step).
  destruct (Rle_dec 0 (decay_ratio step)); [|done].
  destruct (Rle_dec (decay_ratio step) 1); done.
Qed.

Lemma lr_gap_nonneg : 0 <= max_lr - min_lr.
Proof. unfold min_lr, max_lr. lra. Qed.

Lemma get_lr_total step : is_Some (get_lr step).
Proof.
  destruct (Z.lt_ge_cases step warm_up_steps) as [H|H];
    [rewrite get_lr_warmup by done; eauto|].
  destruct (Z.lt_ge_cases max_steps step) as [H'|H'];
    [rewrite get_lr_floor by done; eauto|].
  rewrite get_lr_decay by lia; eauto.
Qed.

Lemma get_lr_first : get_lr 0 = Some (max_lr / IZR warm_up_steps).
Proof. rewrite get_lr_warmup by (unfold warm_up_steps; lia). f_equal. lra. Qed.

(** The warmup reaches [max_lr] at its last step. *)
Lemma get_lr_last_warmup : get_lr (warm_up_steps - 1) = Some max_lr.
Proof.
  rewrite get_lr_warmup by lia. f_equal.
  replace (IZR (warm_up_steps - 1) + 1) with (IZR warm_up_steps)
    by (rewrite minus_IZR; lra).
  unfold Rdiv. rewrite Rmult_comm, <- Rmult_assoc, Rinv_l, Rmult_1_l; [done|].
  unfold warm_up_steps. lra.
Qed.

Lemma get_lr_max_steps : get_lr max_steps = Some min_lr.
Proof.
  rewrite get_lr_decay by (unfold warm_up_steps, max_steps; lia).
  unfold decay_ratio. f_equal.
  replace (PI * ((IZR max_steps - IZR warm_up_steps)
                 / (IZR max_steps - IZR warm_up_steps))) with PI
    by (unfold warm_up_steps, max_steps; field; lra).
  rewrite cos_PI. lra.
Qed.

Lemma get_lr_warmup_mono s t :
  (0 <= s <= t)%Z -> (t < warm_up_steps)%Z -> lr_le s t.
Proof.
  intros [Hs Hst] Ht. unfold lr_le.
  assert (Hmax : 0 <= max_lr) by (unfold max_lr; lra).
  assert (Hinv : 0 <= / IZR warm_up_steps)
    by (apply Rlt_le, Rinv_0_lt_compat; unfold warm_up_steps; lra).
  apply IZR_le in Hst as Hst'.
  rewrite !get_lr_warmup by lia. eexists _, _.
  repeat split; try reflexivity.
  unfold Rdiv. apply Rmult_le_compat_r; [done|].
  apply Rmult_le_compat_r; [done|]. lra.
Qed.

Lemma get_lr_decay_mono s t :
  (warm_up_steps <= s <= t)%Z -> (t <= max_steps)%Z -> lr_le t s.
Proof.
  intros [Hs Hst] Ht. unfold lr_le.
  rewrite (get_lr_decay s), (get_lr_decay t) by lia.
  eexists _, _. repeat split; try reflexivity.
  pose proof (decay_ratio_bounds s ltac:(lia)) as [Hs0 Hs1].
  pose proof (decay_ratio_bounds t ltac:(lia)) as [Ht0 Ht1].
  pose proof (decay_ratio_mono s t Hst) as Hmono.
  pose proof PI_RGT_0 as Hpi.
  assert (Hcos : cos (PI * decay_ratio t) <= cos (PI * decay_ratio s)).
  { apply cos_decr_1; try nra. }
  pose proof lr_gap_nonneg. nra.
Qed.

(** The decay never exceeds the value the warmup ended on. *)
Lemma get_lr_decay_below_warmup t :
  (warm_up_steps <= t <= max_steps)%Z -> lr_le t (warm_up_steps - 1).
Proof.
  intros Ht. unfold lr_le.
  rewrite (get_lr_decay t), get_lr_last_warmup by lia.
  eexists _, _. repeat split; try reflexivity.
  pose proof (COS_bound (PI * decay_ratio t)) as [_ Hcos].
  pose proof lr_gap_nonneg. nra.
Qed.

End Schedule.

(** ** The schedule in double precision *)

Module ScheduleDouble.

Import Floats.

Local Open Scope float_scope.

(** Python's [float] is the IEEE 754 binary64 format with rounding to
    nearest, which is what the primitive floats are; a decimal literal
    denotes the nearest double, in Python as here. *)
#[warnings="-inexact-float"]
Definition max_lr : float := 6e-4.
#[warnings="-inexact-float"]
Definition min_lr : float := 0.1 * max_lr.
Definition warm_up_steps : Z := 715.
Definition max_steps : Z := 19073.

(** [math.pi]. *)
Definition pi : float := 0x1.921fb54442d18p+1.

(** The conversion of an [int] operand of a float operation, exact for
    the integers below [2^53] in absolute value (those of a run are). *)
Definition of_int (z : Z) : float :=
  if (z <? 0)%Z then - PrimFloat.of_uint63 (Uint63.of_Z (- z))
  else PrimFloat.of_uint63 (Uint63.of_Z z).

(** [get_lr], lines 279-287, operation by operation; [cos] is
    [math.cos], the cosine of the C library.  The quotient of two [int]s
    on line 284 is the correctly rounded quotient, which for integers
    this small is the quotient of their conversions. *)
Definition get_lr (cos : float -> float) (step : Z) : option float :=
  if (step <? warm_up_steps)%Z then
    Some (of_int (step + 1) * max_lr / of_int warm_up_steps)
  else if (max_steps <? step)%Z then
    Some min_lr
  else
    let decay_ratio :=
      of_int (step - warm_up_steps) / of_int (max_steps - warm_up_steps) in
    if (0 <=? decay_ratio) && (decay_ratio <=? 1) then
      let coeff := 0.5 * (1.0 + cos (pi * decay_ratio)) in
      Some (min_lr + coeff * (max_lr - min_lr))
    else None.

(** The values of the warmup, in the order of the steps, and a test that
    a list of doubles never decreases. *)
Definition warmup_values : list float :=
  map (fun i : nat => of_int (Z.of_nat i + 1) * max_lr / of_int warm_up_steps)
    (seq 0 715).

Fixpoint ascending (l : list float) : bool :=
  match l with
  | [] => true
  | x :: r => forallb (fun y => x <=? y) (x :: r) && ascending r
  end.

Lemma ascending_lookup (l : list float) :
  ascending l = true ->
  forall i j a b, (i <= j)%nat -> l !! i = Some a -> l !! j = Some b ->
                  (a <=? b) = true.
Proof.
  induction l as [|x r IH]; intros Hasc i j a b Hij Hi Hj; [done|].
  cbn [ascending] in Hasc. apply andb_prop in Hasc as [Hx Hr].
  destruct i as [|i].
  - injection Hi as <-. rewrite forallb_forall in Hx. apply Hx.
    apply list_elem_of_In. by eapply list_elem_of_lookup_2.
  - destruct j as [|j]; [lia|]. apply (IH Hr i j); [lia|done|done].
Qed.

Lemma warmup_ascending : ascending warmup_values = true.
Proof. vm_compute. reflexivity. Qed.

Lemma double_warmup (cos : float -> float) (step : Z) :
  (0 <= step < warm_up_steps)%Z ->
  get_lr cos step
  = Some (of_int (step + 1) * max_lr / of_int warm_up_steps) /\
  warmup_values !! Z.to_nat step
  = Some (of_int (step + 1) * max_lr / of_int warm_up_steps).
Proof.
  intros [H0 H1]. split.
  - unfold get_lr. apply Z.ltb_lt in H1. by rewrite H1.
  - unfold warmup_values.
    assert (Hn : (Z.to_nat step < 715)%nat) by (unfold warm_up_steps in H1; lia).
    pose proof (list_lookup_fmap
                  (fun i : nat => of_int (Z.of_nat i + 1) * max_lr / of_int warm_up_steps)
                  (seq 0 715) (Z.to_nat step)) as Hl.
    rewrite lookup_seq_lt in Hl by done.
    cbn [fmap option_fmap option_map Nat.add] in Hl.
    rewrite Z2Nat.id in Hl by done. exact Hl.
Qed.

Lemma double_warmup_mono (cos : float -> float) (s t : Z) :
  (0 <= s <= t)%Z -> (t < warm_up_steps)%Z ->
  exists a b, get_lr cos s = Some a /\ get_lr cos t = Some b /\ (a <=? b) = true.
Proof.
  intros [Hs Hst] Ht.
  destruct (double_warmup cos s ltac:(lia)) as [Hs1 Hs2].
  destruct (double_warmup cos t ltac:(lia)) as [Ht1 Ht2].
  eexists _, _. split; [exact Hs1|]. split; [exact Ht1|].
  apply (ascending_lookup _ warmup_ascending (Z.to_nat s) (Z.to_nat t));
    [lia | exact Hs2 | exact Ht2].
Qed.

Lemma double_floor (cos : float -> float) (step : Z) :
  (max_steps < step)%Z -> get_lr cos step = Some min_lr.
Proof.
  intros H. unfold get_lr.
  assert (H1 : (step <? warm_up_steps)%Z = false)
    by (apply Z.ltb_ge; unfold warm_up_steps, max_steps in *; lia).
  apply Z.ltb_lt in H. by rewrite H1, H.
Qed.

(** C4, the claim as stated, fails on the doubles the code computes
    with: at step [warm_up_steps] the rate is not [max_lr] but the double
    just below it, so the rate decreases from step [warm_up_steps - 1],
    where it is [max_lr], to step [warm_up_steps]; [math.cos(0.0)] is
    1.0. *)
Lemma get_lr_at_warm_up_steps_below_max_lr :
  exists lr714 lr715 : float,
    (forall cos : float -> float, cos 0 = 1 ->
       get_lr cos (warm_up_steps - 1) = Some lr714 /\
       get_lr cos warm_up_steps = Some lr715) /\
    (lr714 =? max_lr) = true /\
    (lr715 =? max_lr) = false /\
    (lr715 <? lr714) = true.
Proof.
  exists max_lr, (next_down max_lr). split; [|by vm_compute].
  intros cos H0. split; [reflexivity|].
  vm_compute. rewrite H0. reflexivity.
Qed.

(** C4, amended.  On doubles, for any cosine that is exact at 0 and at
    [math.pi]: [lr(0) = max_lr/warm_up_steps]; the warmup never decreases
    and reaches exactly [max_lr] at its last step, [warm_up_steps - 1];
    at [warm_up_steps] the rate is [min_lr + (max_lr - min_lr)], the
    double next below [max_lr]; [lr(max_steps) = min_lr = 0.1 * max_lr],
    and the rate is [min_lr] at every later step.  In exact arithmetic
    the rate is defined at every step, follows the cosine formula on
    [[warm_up_steps, max_steps]] and never increases from
    [warm_up_steps - 1] to [max_steps]. *)
#[warnings="-inexact-float"]
Theorem get_lr_schedule_rounded (cos : float -> float) :
  cos 0 = 1 -> cos pi = -1 ->
  (get_lr cos 0 = Some (max_lr / of_int warm_up_steps) /\
   get_lr cos (warm_up_steps - 1) = Some max_lr /\
   get_lr cos warm_up_steps = Some (min_lr + (max_lr - min_lr)) /\
   min_lr + (max_lr - min_lr) = next_down max_lr /\
   get_lr cos max_steps = Some min_lr /\
   min_lr = 0.1 * max_lr /\
   (forall s t, (0 <= s <= t)%Z -> (t < warm_up_steps)%Z ->
      exists a b, get_lr cos s = Some a /\ get_lr cos t = Some b /\
                  (a <=? b) = true) /\
   (forall s, (max_steps < s)%Z -> get_lr cos s = Some min_lr)) /\
  ((forall step, is_Some (Schedule.get_lr step)) /\
   (forall s t, (0 <= s <= t)%Z -> (t < Schedule.warm_up_steps)%Z ->
      Schedule.lr_le s t) /\
   (forall s t, (Schedule.warm_up_steps - 1 <= s <= t)%Z ->
      (t <= Schedule.max_steps)%Z -> Schedule.lr_le t s) /\
   (forall s, (Schedule.warm_up_steps <= s <= Schedule.max_steps)%Z ->
      Schedule.get_lr s
      = Some (Schedule.min_lr
              + 0.5 * (1 + Rtrigo_def.cos (PI * Schedule.decay_ratio s))
                * (Schedule.max_lr - Schedule.min_lr))%R) /\
   (forall s, (Schedule.max_steps < s)%Z ->
      Schedule.get_lr s = Some Schedule.min_lr)).
Proof.
  intros H0 Hpi. split.
  - split; [reflexivity|]. split; [reflexivity|].
    split; [vm_compute; rewrite H0; reflexivity|].
    split; [reflexivity|].
    split.
    { change (cos 0x1.921fb54442d18p+1 = -1) in Hpi.
      vm_compute. vm_compute in Hpi. rewrite Hpi. reflexivity. }
    split; [reflexivity|].
    split; [apply double_warmup_mono | apply double_floor].
  - split; [apply Schedule.get_lr_total|].
    split; [apply Schedule.get_lr_warmup_mono|].
    split.
    { intros s t [Hs Hst] Ht.
      destruct (Z.eq_dec s (Schedule.warm_up_steps - 1)%Z) as [->|Hne].
      - destruct (Z.eq_dec t (Schedule.warm_up_steps - 1)%Z) as [->|Hne'].
        + destruct (Schedule.get_lr_total (Schedule.warm_up_steps - 1)%Z) as [a Ha].
          exists a, a. repeat split; try done.
        + apply Schedule.get_lr_decay_below_warmup. lia.
      - apply Schedule.get_lr_decay_mono; lia. }
    split; [|apply Schedule.get_lr_floor].
    intros s Hs. rewrite Schedule.get_lr_decay by done. do 2 f_equal. lra.
Qed.

Lemma get_lr_schedule_rounded_witness :
  get_lr (fun x => if x =? 0 then 1 else -1) warm_up_steps
  = Some (min_lr + (max_lr - min_lr)).
Proof.
  apply (get_lr_schedule_rounded (fun x => if x =? 0 then 1 else -1));
    reflexivity.
Defined.

End ScheduleDouble.

(** ** Model construction and weight initialisation: [GPT.__init__] and
    [GPT._init_weights] *)

Module Init.

Local Open Scope R_scope.

Record GPTConfig := mkConfig {
  block_size : nat;
  vocab_size : nat;
  n_layer : nat;
  n_head : nat;
  n_embd : nat
}.

(** What [_init_weights] can tell modules apart by: the [isinstance] tests
    and the presence of the attribute [NANOGPT_SCALE_INIT]. *)
Inductive kind := Linear (has_bias : bool) | Embedding | LayerNorm | GELU | Container.

(** A module with the name it has in its parent and its submodules in
    registration order. *)
#[warnings="-register-all"]
Inductive module :=
  Mod (name : string) (k : kind) (NANOGPT_SCALE_INIT : bool) (children : list module).

Definition mod_name (m : module) : string := let 'Mod n _ _ _ := m in n.
Definition mod_kind (m : module) : kind := let 'Mod _ k _ _ := m in k.
Definition has_scale_init (m : module) : bool := let 'Mod _ _ s _ := m in s.
Definition mod_children (m : module) : list module := let 'Mod _ _ _ c := m in c.

(** [MLP.__init__], lines 10-14: [c_proj] is a plain [nn.Linear]. *)
Definition MLP (name : string) : module :=
  Mod name Container false
    [ Mod "c_fc" (Linear true) false [];
      Mod "gelu" GELU false [];
      Mod "c_proj" (Linear true) false [] ].

(** [CausalSelfAttention.__init__], lines 22-30: [c_proj] gets the
    attribute [NANOGPT_SCALE_INIT = 1]. *)
Definition CausalSelfAttention (name : string) : module :=
  Mod name Container false
    [ Mod "c_attn" (Linear true) false [];
      Mod "c_proj" (Linear true) true [] ].

(** [Block.__init__], lines 49-54. *)
Definition Block (name : string) : module :=
  Mod name Container false
    [ Mod "ln_1" LayerNorm false [];
      CausalSelfAttention "attn";
      Mod "ln_2" LayerNorm false [];
      MLP "mlp" ].

(** [GPT.__init__], lines 70-80: the module tree. *)
Definition GPT_modules (config : GPTConfig) : module :=
  Mod "" Container false
    [ Mod "transformer" Container false
        [ Mod "wte" Embedding false [];
          Mod "wpe" Embedding false [];
          Mod "h" Container false
            (map (fun i : nat => Block (pretty i)) (seq 0 (n_layer config)));
          Mod "ln_f" LayerNorm false [] ];
      Mod "lm_head" (Linear false) false [] ].

(** How a tensor is filled: [nn.init.normal_] or [nn.init.zeros_]. *)
Inductive init_dist := Normal (mean std : R) | Zeros.

(** [_init_weights], lines 87-96: the in-place initialisations it performs
    on one module, by parameter name. *)
Definition _init_weights (config : GPTConfig) (m : module)
  : list (string * init_dist) :=
  let std := 0.02 in
  match mod_kind m with
  | Linear has_bias =>
      let std := if has_scale_init m
                 then std * Rpower (2 * INR (n_layer config)) (-0.5)
                 else std in
      ("weight", Normal 0.0 std)
        :: (if has_bias then [("bias", Zeros)] else [])
  | Embedding => [("weight", Normal 0.0 std)]
  | _ => []
  end.

Definition join (path name : string) : string :=
  if String.eqb path "" then name else path +:+ "." +:+ name.

(** [nn.Module.apply(fn)]: [fn] on every submodule, children first, each
    initialisation recorded under the parameter's dotted name. *)
Fixpoint apply (fn : module -> list (string * init_dist)) (path : string)
    (m : module) {struct m} : list (string * init_dist) :=
  match m with
  | Mod name k s children =>
      let here := join path name in
      concat (map (apply fn here) children)
        ++ map (fun e : string * init_dist => (join here e.1, e.2)) (fn m)
  end.

(** [self.apply(self._init_weights)], line 85. *)
Definition init_log (config : GPTConfig) : list (string * init_dist) :=
  apply (_init_weights config) "" (GPT_modules config).

(** The last initialisation written to a parameter. *)
Definition final_init (log : list (string * init_dist)) (p : string)
  : option init_dist :=
  snd <$> last (List.filter (fun e : string * init_dist => String.eqb e.1 p) log).

(** The default [GPTConfig] of lines 62-67. *)
#[warnings="-abstract-large-number"]
Definition default_config : GPTConfig := mkConfig 1024 50257 12 12 768.

(** The submodule reached from [m] by a path of attribute names. *)
Fixpoint submodule (m : module) (path : list string) : option module :=
  match path with
  | [] => Some m
  | n :: rest =>
      m' ← List.find (fun c => String.eqb (mod_name c) n) (mod_children m);
      submodule m' rest
  end.

Lemma Rpower_neg_half x : 0 < x -> Rpower x (-0.5) = / sqrt x.
Proof.
  intros Hx. replace (-0.5) with (- / 2) by lra.
  by rewrite Rpower_Ropp, Rpower_sqrt.
Qed.

(** The scaled deviation differs from the plain one for every depth. *)
Lemma scaled_std_lt (n : nat) :
  (1 <= n)%nat -> 0.02 * Rpower (2 * INR n) (-0.5) < 0.02.
Proof.
  intros Hn. apply le_INR in Hn. simpl in Hn.
  rewrite Rpower_neg_half by lra.
  assert (H1 : 1 < sqrt (2 * INR n)).
  { rewrite <- sqrt_1 at 1. apply sqrt_lt_1; lra. }
  assert (H2 : / sqrt (2 * INR n) < / 1) by (apply Rinv_lt_contravar; lra).
  rewrite Rinv_1 in H2. lra.
Qed.

Lemma submodule_block (config : GPTConfig) (i : nat) :
  (i < n_layer config)%nat ->
  submodule (GPT_modules config) ["transformer"; "h"; pretty i]
  = Some (Block (pretty i)).
Proof.
  intros Hi. cbn -[pretty].
  set (bs := map _ _).
  assert (Hfind : forall k n,
            (k <= i < k + n)%nat ->
            List.find (fun c => String.eqb (mod_name c) (pretty i))
              (map (fun j : nat => Block (pretty j)) (seq k n))
            = Some (Block (pretty i))).
  { intros k n. revert k. induction n as [|n IH]; intros k Hk; [lia|].
    cbn -[pretty String.eqb].
    destruct (String.eqb_spec (pretty k) (pretty i)) as [Heq|Hne].
    - by rewrite Heq.
    - apply IH. assert (k <> i) by congruence. lia. }
  subst bs. rewrite Hfind by lia. reflexivity.
Qed.

(** C2, the code at the default configuration (12 layers): the attention
    output projection of a block is drawn with deviation
    [0.02 * (2*12)^-0.5], but the MLP output projection of the same block
    is drawn with the plain deviation 0.02, which is a different number;
    every other weight is drawn with 0.02 and every bias is zeroed. *)
Theorem mlp_c_proj_init_not_scaled :
  let log := init_log default_config in
  final_init log "transformer.h.0.attn.c_proj.weight"
    = Some (Normal 0.0 (0.02 * Rpower (2 * INR 12) (-0.5))) /\
  final_init log "transformer.h.0.mlp.c_proj.weight" = Some (Normal 0.0 0.02) /\
  0.02 * Rpower (2 * INR 12) (-0.5) < 0.02 /\
  final_init log "transformer.h.0.attn.c_attn.weight" = Some (Normal 0.0 0.02) /\
  final_init log "transformer.h.0.mlp.c_fc.weight" = Some (Normal 0.0 0.02) /\
  final_init log "transformer.wte.weight" = Some (Normal 0.0 0.02) /\
  final_init log "transformer.wpe.weight" = Some (Normal 0.0 0.02) /\
  final_init log "lm_head.weight" = Some (Normal 0.0 0.02) /\
  final_init log "transformer.h.0.mlp.c_proj.bias" = Some Zeros /\
  final_init log "transformer.h.0.attn.c_proj.bias" = Some Zeros.
Proof.
  cbv zeta. repeat split; try reflexivity.
  apply scaled_std_lt. lia.
Qed.

(** The same at every depth and in every block: the MLP output projection
    carries no [NANOGPT_SCALE_INIT] and is drawn with 0.02, the attention
    output projection carries it and is drawn with the scaled deviation. *)
Lemma c_proj_init_every_block (config : GPTConfig) (i : nat) (blk mlp attn : module) :
  (i < n_layer config)%nat ->
  submodule (GPT_modules config) ["transformer"; "h"; pretty i] = Some blk ->
  submodule blk ["mlp"; "c_proj"] = Some mlp ->
  submodule blk ["attn"; "c_proj"] = Some attn ->
  _init_weights config mlp = [("weight", Normal 0.0 0.02); ("bias", Zeros)] /\
  _init_weights config attn
    = [("weight", Normal 0.0 (0.02 * Rpower (2 * INR (n_layer config)) (-0.5)));
       ("bias", Zeros)] /\
  0.02 * Rpower (2 * INR (n_layer config)) (-0.5) < 0.02.
Proof.
  intros Hi Hb Hm Ha. rewrite submodule_block in Hb by done.
  injection Hb as <-. cbn in Hm, Ha. injection Hm as <-. injection Ha as <-.
  repeat split. apply scaled_std_lt. lia.
Qed.

End Init.

(** ** The distributed wrapping and the collectives of one training step *)

Module Distributed.

(** The two kinds of object the name [model] can be bound to: the GPT
    module itself, on which [require_backward_grad_sync] is an ordinary
    attribute nothing reads, and a [DistributedDataParallel] wrapper, whose
    backward pass all-reduces the gradients when the flag is set. *)
Inductive py_module :=
  | GPTModule (require_backward_grad_sync : option bool)
  | DDPModule (module : py_module) (require_backward_grad_sync : bool).

(** The constructor [DDP(module, device_ids=...)]: a new wrapper object;
    its flag starts out set. *)
Definition DDP (m : py_module) : py_module := DDPModule m true.

(** [obj.require_backward_grad_sync = b]. *)
Definition set_require_backward_grad_sync (o : py_module) (b : bool) : py_module :=
  match o with
  | GPTModule _ => GPTModule (Some b)
  | DDPModule m _ => DDPModule m b
  end.

Inductive event :=
  | ZeroGrad
  | Forward
  | Backward
  | GradAllReduce
  | LossAllReduce
  | ClipGradNorm
  | OptimizerStep.

#[local] Instance event_eq_dec : EqDecision event.
Proof. solve_decision. Defined.

(** [loss.backward()] through the object the forward pass was called on. *)
Definition backward (o : py_module) : list event :=
  match o with
  | DDPModule _ true => [Backward; GradAllReduce]
  | _ => [Backward]
  end.

(** Lines 253-257, in binary numbers: the accumulation steps of a run with
    [world_size] workers; [None] is the failed divisibility [assert]. *)
Definition total_bs : N := 524288.
Definition B : N := 32.
Definition T : N := 1024.

Definition grad_accum_steps (ddp_world_size : N) : option nat :=
  if decide (total_bs `mod` (B * T * ddp_world_size) = 0)%N
  then Some (N.to_nat (total_bs `div` (B * T * ddp_world_size)))
  else None.

(** Lines 271-273: [DDP(model, ...)] is evaluated as an expression
    statement, so the wrapper it builds is bound to no name; [model] and
    [raw_model] stay the GPT module. *)
Definition model_after_wrapping (ddp : bool) (model : py_module) : py_module :=
  let _wrapper := if ddp then Some (DDP model) else None in
  model.

Definition raw_model (ddp : bool) (model : py_module) : py_module :=
  model_after_wrapping ddp model.

(** The micro-step loop of lines 340-350, from micro-step [i] on. *)
Fixpoint micro_steps (ddp : bool) (grad_accum_steps : nat) (i : nat)
    (remaining : nat) (model : py_module) : list event * py_module :=
  match remaining with
  | O => ([], model)
  | S r =>
      let model1 :=
        if ddp
        then set_require_backward_grad_sync model
               (bool_decide (i = grad_accum_steps - 1))
        else model in
      let '(rest, model2) := micro_steps ddp grad_accum_steps (S i) r model1 in
      (Forward :: backward model1 ++ rest, model2)
  end.

(** One iteration of the training loop, lines 337-357. *)
Definition train_step (ddp : bool) (grad_accum_steps : nat) (model : py_module)
  : list event :=
  let '(evs, _) := micro_steps ddp grad_accum_steps 0 grad_accum_steps model in
  [ZeroGrad] ++ evs
    ++ (if ddp then [LossAllReduce] else [])
    ++ [ClipGradNorm; OptimizerStep].

(** The number of gradient all-reduces in a trace. *)
Definition grad_syncs (evs : list event) : nat :=
  length (filter (fun e => e = GradAllReduce) evs).

Lemma micro_steps_plain_module ddp k r : forall i flag,
  grad_syncs (micro_steps ddp k i r (GPTModule flag)).1 = 0 /\
  exists flag', (micro_steps ddp k i r (GPTModule flag)).2 = GPTModule flag'.
Proof.
  induction r as [|r IH]; intros i flag; simpl; [eauto|].
  destruct ddp; simpl.
  - destruct (IH (S i) (Some (bool_decide (i = k - 1)))) as [H1 H2].
    destruct (micro_steps true k (S i) r _) as [rest m2]. simpl in *.
    split; [|done]. unfold grad_syncs in *. simpl.
    rewrite !filter_cons_False by done. exact H1.
  - destruct (IH (S i) flag) as [H1 H2].
    destruct (micro_steps false k (S i) r _) as [rest m2]. simpl in *.
    split; [|done]. unfold grad_syncs in *. simpl.
    rewrite !filter_cons_False by done. exact H1.
Qed.

(** C1, the code: in a distributed run the object bound to [model] is the
    plain GPT module (the wrapper built on line 272 is dropped), so a
    training step of any number of micro-steps performs no gradient
    all-reduce at all; with 8 workers the step has 2 micro-steps and its
    only collective is the average of the logged loss.  The optimizer's
    model is the very object the backward passes ran on. *)
Theorem ddp_step_never_all_reduces_gradients :
  (forall k flag,
     grad_syncs (train_step true k (model_after_wrapping true (GPTModule flag))) = 0) /\
  grad_accum_steps 8 = Some 2 /\
  train_step true 2 (model_after_wrapping true (GPTModule None))
    = [ZeroGrad; Forward; Backward; Forward; Backward;
       LossAllReduce; ClipGradNorm; OptimizerStep] /\
  raw_model true (GPTModule None) = model_after_wrapping true (GPTModule None).
Proof.
  split; [|by repeat split].
  intros k flag. unfold train_step, model_after_wrapping.
  destruct (micro_steps_plain_module true k k 0 flag) as [H _].
  destruct (micro_steps true k 0 k (GPTModule flag)) as [evs m]. simpl in H.
  unfold grad_syncs in *. simpl.
  rewrite filter_cons_False, filter_app by done.
  rewrite length_app, H. reflexivity.
Qed.

(** For comparison, the loop run on a wrapper (had line 272 rebound
    [model]): exactly one gradient all-reduce, right after the backward
    pass of the last micro-step. *)
Lemma micro_steps_wrapped k r : forall i m flag,
  i + r = k -> 0 < r ->
  exists pre m',
    micro_steps true k i r (DDPModule m flag)
      = (pre ++ [Forward; Backward; GradAllReduce], m') /\
    grad_syncs pre = 0.
Proof.
  induction r as [|r IH]; intros i m flag Hk Hr; [lia|].
  simpl. destruct r as [|r].
  - simpl. rewrite bool_decide_eq_true_2 by lia. simpl.
    exists [], (DDPModule m true). done.
  - rewrite (bool_decide_eq_false_2 (i = k - 1)) by lia.
    destruct (IH (S i) m false ltac:(lia) ltac:(lia)) as (pre & m' & Heq & Hpre).
    rewrite Heq. simpl.
    exists (Forward :: Backward :: pre), m'. split; [done|].
    unfold grad_syncs in *. by rewrite !filter_cons_False by done.
Qed.

Lemma wrapped_step_all_reduces_once k m :
  0 < k ->
  exists pre,
    train_step true k (DDP m)
      = ZeroGrad :: pre ++ [Forward; Backward; GradAllReduce]
          ++ [LossAllReduce; ClipGradNorm; OptimizerStep] /\
    grad_syncs pre = 0 /\
    grad_syncs (train_step true k (DDP m)) = 1.
Proof.
  intros Hk. unfold train_step, DDP.
  destruct (micro_steps_wrapped k k 0 m true ltac:(lia) Hk) as (pre & m' & Heq & Hpre).
  rewrite Heq. exists pre. simpl. split; [by rewrite <- app_assoc|].
  split; [done|].
  unfold grad_syncs in *. rewrite filter_cons_False by done.
  rewrite !filter_app, !length_app, Hpre. reflexivity.
Qed.

End Distributed.

(** ** Parameter objects and the tied embedding *)

Module Tying.

Local Open Scope R_scope.

(** A [Parameter] object: its values and its gradient buffer ([None]
    after [zero_grad]).  The heap maps object identities to objects; a
    module attribute holds an identity. *)
Record parameter := mkParam { data : list R; grad : option (list R) }.

Definition vadd (a b : list R) : list R := zip_with Rplus a b.

(** The two attributes line 82 is about. *)
Definition wte_weight : string := "transformer.wte.weight".
Definition lm_head_weight : string := "lm_head.weight".

Record model := mkModel {
  attrs : gmap string positive;
  heap : gmap positive parameter
}.

(** [nn.Embedding(...)] / [nn.Linear(...)] registering a fresh parameter
    under an attribute. *)
Definition register (name : string) (values : list R) (m : model) : model :=
  let l := fresh (dom (heap m)) in
  mkModel (<[name := l]> (attrs m)) (<[l := mkParam values None]> (heap m)).

(** [a.weight = b.weight]: the attribute [a] now holds the object of [b]. *)
Definition assign_attr (a b : string) (m : model) : model :=
  match attrs m !! b with
  | Some l => mkModel (<[a := l]> (attrs m)) (heap m)
  | None => m
  end.

(** Lines 75-82, for the two parameters concerned: the embedding table and
    the head are created, then tied. *)
Definition GPT_init (wte0 head0 : list R) : model :=
  assign_attr wte_weight lm_head_weight
    (register lm_head_weight head0
       (register wte_weight wte0 (mkModel ∅ ∅))).

(** The values seen through an attribute. *)
Definition view (m : model) (name : string) : option (list R) :=
  l ← attrs m !! name; data <$> heap m !! l.

Definition grad_view (m : model) (name : string) : option (list R) :=
  l ← attrs m !! name; p ← heap m !! l; grad p.

(** Autograd's accumulation into the [.grad] of the parameter used through
    attribute [name]. *)
Definition accumulate_grad (name : string) (g : list R) (m : model) : model :=
  match attrs m !! name with
  | Some l =>
      mkModel (attrs m)
        (alter (fun p => mkParam (data p)
                           (Some (match grad p with
                                  | None => g
                                  | Some g0 => vadd g0 g
                                  end))) l (heap m))
  | None => m
  end.

(** A backward pass: one contribution per use of a parameter in the
    forward pass, in the order autograd reaches them. *)
Definition backward (uses : list (string * list R)) (m : model) : model :=
  foldl (fun acc u => accumulate_grad u.1 u.2 acc) m uses.

(** [optimizer.zero_grad()] and [optimizer.step()]: the optimizer holds
    each parameter object once ([named_parameters] yields an object shared
    by two attributes a single time) and rewrites its values in place. *)
Definition zero_grad (m : model) : model :=
  mkModel (attrs m) ((fun p => mkParam (data p) None) <$> heap m).

Definition optimizer_step (update : list R -> list R -> list R) (m : model) : model :=
  mkModel (attrs m)
    ((fun p => match grad p with
               | Some g => mkParam (update (data p) g) (grad p)
               | None => p
               end) <$> heap m).

(** Being tied is a property of the attribute table alone. *)
Definition tied (m : model) : Prop :=
  exists l, attrs m !! wte_weight = Some l /\ attrs m !! lm_head_weight = Some l /\
            is_Some (heap m !! l).

(** [clip_grad_norm_], line 353, on the store: every gradient buffer is
    multiplied in place by one coefficient (computed from the norm of all
    the gradients of the model). *)
Definition clip_grads (coef : R) (m : model) : model :=
  mkModel (attrs m)
    ((fun p => mkParam (data p) (map (fun x => x * coef) <$> grad p)) <$> heap m).

(** The backward pass of one micro-step (line 350) as far as the shared
    storage goes: a contribution of the head's use, which autograd reaches
    first, and one of the embedding's use. *)
Definition micro_backward (c : list R * list R) (m : model) : model :=
  backward [(lm_head_weight, c.1); (wte_weight, c.2)] m.

(** Lines 338-350: [optimizer.zero_grad()], then the micro-steps. *)
Definition accumulate_grads (micro : list (list R * list R)) (m : model) : model :=
  foldl (fun acc c => micro_backward c acc) (zero_grad m) micro.

(** One iteration of the training loop, lines 338-357: the contributions
    of its micro-steps, the clipping coefficient, and the update rule its
    optimizer step applies. *)
Record step := mkStep {
  micro : list (list R * list R);
  clip_coef : R;
  update_rule : list R -> list R -> list R
}.

Definition iteration (s : step) (m : model) : model :=
  optimizer_step (update_rule s)
    (clip_grads (clip_coef s) (accumulate_grads (micro s) m)).

(** The model after any number of iterations. *)
Definition train (history : list step) (m : model) : model :=
  foldl (fun acc s => iteration s acc) m history.

(** The contributions of one use, summed over the micro-steps. *)
Definition total (g : list R) (gs : list (list R)) : list R := foldl vadd g gs.

(** Both attributes hold the object at [l], whose values are [v] and whose
    gradient buffer is [g]. *)
Definition shared (m : model) (l : positive) (v : list R) (g : option (list R))
  : Prop :=
  attrs m !! wte_weight = Some l /\ attrs m !! lm_head_weight = Some l /\
  heap m !! l = Some (mkParam v g).

Lemma accumulate_grad_lookup name g m l p :
  attrs m !! name = Some l -> heap m !! l = Some p ->
  attrs (accumulate_grad name g m) = attrs m /\
  heap (accumulate_grad name g m) !! l
  = Some (mkParam (data p)
            (Some (match grad p with None => g | Some g0 => vadd g0 g end))).
Proof.
  intros Ha Hl. unfold accumulate_grad. rewrite Ha. cbn [attrs heap].
  split; [done|]. by rewrite lookup_alter_eq, Hl.
Qed.

Lemma GPT_init_attrs wte0 head0 :
  exists l,
    attrs (GPT_init wte0 head0) !! wte_weight = Some l /\
    attrs (GPT_init wte0 head0) !! lm_head_weight = Some l /\
    heap (GPT_init wte0 head0) !! l = Some (mkParam head0 None).
Proof.
  unfold GPT_init, assign_attr, register. cbn [attrs heap].
  rewrite lookup_insert_eq. cbn [attrs heap].
  eexists. split; [by rewrite lookup_insert_eq|].
  split.
  - rewrite lookup_insert_ne by done. by rewrite lookup_insert_eq.
  - by rewrite lookup_insert_eq.
Qed.

Lemma tied_views m : tied m -> view m wte_weight = view m lm_head_weight.
Proof. intros (l & H1 & H2 & _). unfold view. by rewrite H1, H2. Qed.

Lemma tied_optimizer_step update m : tied m -> tied (optimizer_step update m).
Proof.
  intros (l & H1 & H2 & [p Hp]). exists l. unfold optimizer_step; cbn [attrs heap].
  repeat split; try done. rewrite lookup_fmap, Hp. simpl. eauto.
Qed.

Lemma tied_zero_grad m : tied m -> tied (zero_grad m).
Proof.
  intros (l & H1 & H2 & [p Hp]). exists l. unfold zero_grad; cbn [attrs heap].
  repeat split; try done. rewrite lookup_fmap, Hp. simpl. eauto.
Qed.

Lemma tied_accumulate name g m : tied m -> tied (accumulate_grad name g m).
Proof.
  intros (l & H1 & H2 & [p Hp]). unfold accumulate_grad.
  destruct (attrs m !! name) as [l'|]; [|by exists l; eauto].
  exists l. cbn [attrs heap]. repeat split; try done.
  destruct (decide (l' = l)) as [->|Hne].
  - rewrite lookup_alter_eq, Hp. simpl. eauto.
  - rewrite lookup_alter_ne by done. eauto.
Qed.

Lemma tied_backward uses : forall m, tied m -> tied (backward uses m).
Proof.
  unfold backward. induction uses as [|u uses IH]; intros m Hm; simpl; [done|].
  by apply IH, tied_accumulate.
Qed.

Lemma vadd_comm (a b : list R) : vadd a b = vadd b a.
Proof.
  revert b. induction a as [|x a IH]; intros [|y b]; simpl; try done.
  f_equal; [lra | apply IH].
Qed.

Lemma vadd_assoc (a b c : list R) : vadd (vadd a b) c = vadd a (vadd b c).
Proof.
  revert b c. induction a as [|x a IH]; intros [|y b] [|z c]; simpl; try done.
  f_equal; [lra | apply IH].
Qed.

(** Accumulating head and embedding contributions in turn leaves the sum
    of all the head contributions plus the sum of all the embedding
    contributions. *)
Lemma total_split (rest : list (list R * list R)) : forall a b,
  foldl (fun g c => vadd (vadd g c.1) c.2) (vadd a b) rest
  = vadd (total a rest.*1) (total b rest.*2).
Proof.
  unfold total. induction rest as [|[x y] rest IH]; intros a b; [done|].
  cbn [foldl fmap list_fmap fst snd]. rewrite <- IH. f_equal.
  rewrite !vadd_assoc. f_equal. rewrite <- !vadd_assoc. f_equal. apply vadd_comm.
Qed.

Lemma shared_views m l v g :
  shared m l v g ->
  view m wte_weight = Some v /\ view m lm_head_weight = Some v /\
  grad_view m wte_weight = g /\ grad_view m lm_head_weight = g.
Proof.
  intros (Hw & Hh & Hp). unfold view, grad_view.
  rewrite Hw, Hh. cbn [mbind option_bind]. by rewrite Hp.
Qed.

Lemma shared_init wte0 head0 :
  exists l, shared (GPT_init wte0 head0) l head0 None.
Proof. destruct (GPT_init_attrs wte0 head0) as (l & ?). by exists l. Qed.

Lemma shared_zero_grad m l v g :
  shared m l v g -> shared (zero_grad m) l v None.
Proof.
  intros (Hw & Hh & Hp). unfold shared, zero_grad. cbn [attrs heap].
  by rewrite lookup_fmap, Hp.
Qed.

Lemma shared_micro_backward c m l v g :
  shared m l v g ->
  shared (micro_backward c m) l v
    (Some (match g with
           | None => vadd c.1 c.2
           | Some g0 => vadd (vadd g0 c.1) c.2
           end)).
Proof.
  intros (Hw & Hh & Hp). unfold micro_backward, backward. cbn [foldl fst snd].
  destruct (accumulate_grad_lookup lm_head_weight c.1 m l _ Hh Hp) as [Ha Hl].
  cbn [data grad] in Hl.
  destruct (accumulate_grad_lookup wte_weight c.2 _ l _
              ltac:(by rewrite Ha) Hl) as [Ha' Hl'].
  cbn [data grad] in Hl'.
  unfold shared. rewrite Ha', Ha, Hl'. by destruct g.
Qed.

Lemma shared_micro_steps rest : forall m l v a,
  shared m l v (Some a) ->
  shared (foldl (fun acc c => micro_backward c acc) m rest) l v
    (Some (foldl (fun g c => vadd (vadd g c.1) c.2) a rest)).
Proof.
  induction rest as [|c rest IH]; intros m l v a Hm; [done|].
  cbn [foldl]. apply IH. by apply (shared_micro_backward c) in Hm.
Qed.

Lemma shared_accumulate_grads micro m l v g :
  shared m l v g ->
  exists g', shared (accumulate_grads micro m) l v g'.
Proof.
  intros Hm. apply shared_zero_grad in Hm. unfold accumulate_grads.
  destruct micro as [|c rest]; [by eexists|].
  cbn [foldl]. apply (shared_micro_backward c) in Hm.
  eexists. by apply shared_micro_steps.
Qed.

Lemma shared_clip_grads coef m l v g :
  shared m l v g ->
  shared (clip_grads coef m) l v (map (fun x => x * coef) <$> g).
Proof.
  intros (Hw & Hh & Hp). unfold shared, clip_grads. cbn [attrs heap].
  by rewrite lookup_fmap, Hp.
Qed.

Lemma shared_optimizer_step update m l v g :
  shared m l v g ->
  shared (optimizer_step update m) l
    (match g with Some g0 => update v g0 | None => v end) g.
Proof.
  intros (Hw & Hh & Hp). unfold shared, optimizer_step. cbn [attrs heap].
  rewrite lookup_fmap, Hp. by destruct g.
Qed.

Lemma shared_iteration s m l v g :
  shared m l v g -> exists v' g', shared (iteration s m) l v' g'.
Proof.
  intros Hm. destruct (shared_accumulate_grads (micro s) m l v g Hm) as [g1 H1].
  apply (shared_clip_grads (clip_coef s)) in H1.
  apply (shared_optimizer_step (update_rule s)) in H1. unfold iteration. eauto.
Qed.

Lemma shared_train history : forall m l v g,
  shared m l v g -> exists v' g', shared (train history m) l v' g'.
Proof.
  unfold train. induction history as [|s history IH]; intros m l v g Hm; [eauto|].
  cbn [foldl]. destruct (shared_iteration s m l v g Hm) as (v1 & g1 & H1).
  by apply (IH _ _ _ _ H1).
Qed.

(** C8: after construction, and after any number of iterations of the
    training loop, the embedding table and the head weight are one
    parameter object: the two attributes show the same values [v].  In
    the next iteration, whatever was left in the gradient buffer, the
    backward passes of its micro-steps leave in the one shared buffer the
    head's contributions plus the embedding's contributions of this
    iteration and nothing else; clipping scales that sum; and the
    optimizer step applies its update rule to [v] and that gradient once,
    so both attributes show the same new values. *)
Theorem tied_embedding_and_head (wte0 head0 : list R) (history : list step)
    (c : list R * list R) (rest : list (list R * list R)) (coef : R)
    (update : list R -> list R -> list R) :
  let m := train history (GPT_init wte0 head0) in
  let m1 := accumulate_grads (c :: rest) m in
  let m2 := clip_grads coef m1 in
  let m3 := optimizer_step update m2 in
  let g := vadd (total c.1 rest.*1) (total c.2 rest.*2) in
  let g' := map (fun x => x * coef) g in
  m3 = iteration (mkStep (c :: rest) coef update) m /\
  (history = [] -> view m wte_weight = Some head0) /\
  exists v,
    view m wte_weight = Some v /\ view m lm_head_weight = Some v /\
    grad_view m1 wte_weight = Some g /\ grad_view m1 lm_head_weight = Some g /\
    view m1 wte_weight = Some v /\ view m1 lm_head_weight = Some v /\
    grad_view m2 wte_weight = Some g' /\ grad_view m2 lm_head_weight = Some g' /\
    view m2 wte_weight = Some v /\ view m2 lm_head_weight = Some v /\
    view m3 wte_weight = Some (update v g') /\
    view m3 lm_head_weight = Some (update v g').
Proof.
  intros m m1 m2 m3 g g'.
  split; [reflexivity|].
  destruct (shared_init wte0 head0) as [l H0].
  split.
  { intros ->. by apply shared_views in H0 as (? & _). }
  destruct (shared_train history _ _ _ _ H0) as (v & g0 & Hm). fold m in Hm.
  exists v.
  assert (H1 : shared m1 l v (Some g)).
  { subst m1 g. unfold accumulate_grads. cbn [foldl].
    pose proof (shared_micro_backward c _ _ _ _ (shared_zero_grad _ _ _ _ Hm)) as Hc.
    cbn match in Hc. apply (shared_micro_steps rest) in Hc.
    by rewrite total_split in Hc. }
  pose proof (shared_clip_grads coef _ _ _ _ H1) as H2. fold m2 in H2.
  pose proof (shared_optimizer_step update _ _ _ _ H2) as H3. fold m3 in H3.
  cbn [fmap option_fmap option_map] in H2, H3. fold g' in H2, H3.
  apply shared_views in Hm as (? & ? & _).
  apply shared_views in H1 as (? & ? & ? & ?).
  apply shared_views in H2 as (? & ? & ? & ?).
  apply shared_views in H3 as (? & ? & _).
  by repeat split.
Qed.

(** The tie is kept by every operation of the training loop, so the two
    views agree in every state the loop reaches. *)
Lemma tied_views_invariant wte0 head0 :
  tied (GPT_init wte0 head0) /\
  (forall m, tied m -> view m wte_weight = view m lm_head_weight) /\
  (forall m, tied m -> tied (zero_grad m)) /\
  (forall uses m, tied m -> tied (backward uses m)) /\
  (forall update m, tied m -> tied (optimizer_step update m)).
Proof.
  split.
  { destruct (GPT_init_attrs wte0 head0) as (l & Hw & Hh & Hp).
    exists l. rewrite Hp. eauto. }
  split; [apply tied_views|]. split; [apply tied_zero_grad|].
  split; [intros; by apply tied_backward | intros; by apply tied_optimizer_step].
Qed.

End Tying.

(** ** The forward pass: [MLP], [CausalSelfAttention], [Block], [GPT] *)

Module Model.

Local Open Scope R_scope.

(** A vector is a list of reals; a sequence of [T] positions is a list of
    [T] vectors; a batch is a list of sequences.  Every operation of the
    forward pass treats the rows of a batch independently, so the model is
    written for one row and mapped over the batch. *)
Definition vec : Type := list R.

Definition vsum (v : vec) : R := foldr Rplus 0 v.
Definition dot (a b : vec) : R := vsum (zip_with Rmult a b).
Definition vadd (a b : vec) : vec := zip_with Rplus a b.

(** [nn.Linear]: [weight] has one row per output feature. *)
Record Linear := mkLinear { weight : list vec; bias : option vec }.

Definition linear (l : Linear) (x : vec) : vec :=
  let y := map (dot x) (weight l) in
  match bias l with
  | Some b => vadd y b
  | None => y
  end.

(** [nn.LayerNorm] over the last dimension, with its default [eps]. *)
Record LayerNorm := mkLayerNorm { ln_weight : vec; ln_bias : vec }.

Definition layer_norm (p : LayerNorm) (x : vec) : vec :=
  let n := INR (length x) in
  let mean := vsum x / n in
  let var := vsum (map (fun v => (v - mean) ^ 2) x) / n in
  vadd (zip_with Rmult (map (fun v => (v - mean) / sqrt (var + 1e-5)) x)
          (ln_weight p))
       (ln_bias p).

(** [nn.GELU(approximate='tanh')]. *)
Definition gelu (x : R) : R :=
  0.5 * x * (1 + tanh (sqrt (2 / PI) * (x + 0.044715 * x ^ 3))).

(** [MLP], lines 9-20. *)
Record MLP := mkMLP { c_fc : Linear; mlp_c_proj : Linear }.

Definition MLP_forward (m : MLP) (x : vec) : vec :=
  linear (mlp_c_proj m) (map gelu (linear (c_fc m) x)).

(** [CausalSelfAttention], lines 21-46. *)
Record CausalSelfAttention := mkAttn {
  c_attn : Linear;
  c_proj : Linear;
  n_head : nat;
  n_embd : nat
}.

(** The slice of a vector that belongs to head [h]
    ([view(B,T,n_head,hs).transpose(1,2)]). *)
Definition head_slice (hs h : nat) (v : vec) : vec := take hs (drop (h * hs) v).

(** Row [i] of the attention weights before normalisation: the
    exponentials of the scores, with the entries the causal mask sets to
    minus infinity ([j > i]) contributing 0. *)
Definition masked_exp (i : nat) (scores : list R) : list R :=
  imap (fun j s => if decide (j <= i)%nat then exp s else 0) scores.

Definition softmax_masked (i : nat) (scores : list R) : list R :=
  let w := masked_exp i scores in
  map (fun x => x / vsum w) w.

(** [F.scaled_dot_product_attention(q,k,v,is_causal=True)] for one head
    and one query position [i]: softmax of the masked, scaled scores,
    times the values. *)
Definition attend (hs i : nat) (q : vec) (ks vs : list vec) : vec :=
  let scores := map (fun k => dot q k / sqrt (INR hs)) ks in
  let p := softmax_masked i scores in
  map (fun c => vsum (zip_with (fun pj v => pj * nth c v 0) p vs)) (seq 0 hs).

Definition attn_forward (a : CausalSelfAttention) (xs : list vec) : list vec :=
  let C := n_embd a in
  let qkv := map (linear (c_attn a)) xs in
  let q := map (take C) qkv in
  let k := map (fun r => take C (drop C r)) qkv in
  let v := map (fun r => take C (drop (2 * C) r)) qkv in
  let hs := (C / n_head a)%nat in
  let y := imap (fun i qi =>
             concat (map (fun h => attend hs i (head_slice hs h qi)
                                     (map (head_slice hs h) k)
                                     (map (head_slice hs h) v))
                         (seq 0 (n_head a)))) q in
  map (linear (c_proj a)) y.

(** [Block], lines 48-59. *)
Record Block := mkBlock {
  ln_1 : LayerNorm;
  attn : CausalSelfAttention;
  ln_2 : LayerNorm;
  mlp : MLP
}.

Definition Block_forward (b : Block) (x : list vec) : list vec :=
  let x1 := zip_with vadd x (attn_forward (attn b) (map (layer_norm (ln_1 b)) x)) in
  zip_with vadd x1 (map (MLP_forward (mlp b)) (map (layer_norm (ln_2 b)) x1)).

(** The shapes [GPT.__init__] gives the two embedding tables, lines 75-76:
    [nn.Embedding(vocab_size, n_embd)] and
    [nn.Embedding(block_size, n_embd)]. *)
Definition embedding_shapes (config : Init.GPTConfig) (wte wpe : list vec) : Prop :=
  length wte = Init.vocab_size config /\
  length wpe = Init.block_size config /\
  Forall (fun r => length r = Init.n_embd config) wte /\
  Forall (fun r => length r = Init.n_embd config) wpe.

(** The parameters of [GPT]; the head has no bias and its weight is the
    embedding table [wte] (line 82), so it has no field of its own.  A
    [GPT] object only ever comes out of [__init__] ([from_pretrained]
    calls it too) and training rewrites values, not shapes, so the tables
    of every object have the shapes of lines 75-76: the field [tables]. *)
Record GPT := mkGPT {
  config : Init.GPTConfig;
  wte : list vec;
  wpe : list vec;
  h : list Block;
  ln_f : LayerNorm;
  tables : embedding_shapes config wte wpe
}.

Definition lm_head (m : GPT) : Linear := mkLinear (wte m) None.

(** Lines 100-102 for one row of token ids: the sum of the token and the
    position embedding.  [forward] raises before it gets here when a
    lookup is outside its table; the defaults below only make the
    function total, and the tables of a [GPT] have rows of one width. *)
Definition embed (m : GPT) (idx : list nat) : list vec :=
  imap (fun pos tok => vadd (default [] (wte m !! tok)) (default [] (wpe m !! pos))) idx.

Definition logits_row (m : GPT) (idx : list nat) : list vec :=
  let x := foldl (fun x b => Block_forward b x) (embed m idx) (h m) in
  map (linear (lm_head m)) (map (layer_norm (ln_f m)) x).

(** [F.cross_entropy] with its default mean reduction, on the flattened
    logits and targets. *)
Definition nll (z : vec) (y : nat) : R := ln (vsum (map exp z)) - nth y z 0.

Definition cross_entropy (zs : list vec) (ys : list nat) : R :=
  vsum (zip_with nll zs ys) / INR (length zs).

(** The value of the loss as a function of the parameters. *)
Definition loss_value (m : GPT) (idx targets : list (list nat)) : R :=
  cross_entropy (concat (map (logits_row m) idx)) (concat targets).

Inductive error :=
  | SequenceTooLong   (* the assertion of line 99 *)
  | IndexError        (* a position or a token id outside its embedding table *)
  | TargetError.      (* targets of another shape, or outside the classes *)

(** An array of shape [[B, T]]: [B] rows of [T] entries. *)
Definition has_shape (B T : nat) (a : list (list nat)) : Prop :=
  length a = B /\ Forall (fun r => length r = T) a.

Definition tokens_in_range (n : nat) (a : list (list nat)) : Prop :=
  Forall (Forall (fun tok => (tok < n)%nat)) a.

(** [GPT.forward], lines 97-111, on an input of shape [[B, T]]: the
    assertion, then the lookup of the positions [0 .. T-1] in [wpe]
    (line 101) and of the token ids in [wte] (line 102), each an
    [IndexError] when an index is outside the table, then the blocks, the
    head and the loss. *)
Definition forward (m : GPT) (T : nat) (idx : list (list nat))
    (targets : option (list (list nat)))
  : error + (list (list vec) * option R) :=
  if decide (T <= Init.block_size (config m))%nat then
    if decide (T <= length (wpe m))%nat then
      if decide (tokens_in_range (length (wte m)) idx) then
        let logits := map (logits_row m) idx in
        match targets with
        | None => inr (logits, None)
        | Some tg =>
            if decide (has_shape (length idx) T tg
                       /\ tokens_in_range (length (wte m)) tg)
            then inr (logits, Some (cross_entropy (concat logits) (concat tg)))
            else inl TargetError
        end
      else inl IndexError
    else inl IndexError
  else inl SequenceTooLong.

(** A sequence function is causal when it commutes with taking prefixes:
    its first [n] outputs are its outputs on the first [n] inputs. *)
Definition causal {A B : Type} (F : list A -> list B) : Prop :=
  forall n xs, take n (F xs) = F (take n xs).

(** What [targets] must be for the loss to be computed. *)
Definition targets_ok (m : GPT) (B T : nat) (targets : option (list (list nat))) : Prop :=
  match targets with
  | None => True
  | Some tg => has_shape B T tg /\ tokens_in_range (length (wte m)) tg
  end.

(** A one-block model over a two-token vocabulary, used to instantiate the
    statements below. *)
Definition tiny_linear (w : R) : Linear := mkLinear [[w]] (Some [0]).

Definition tiny_block : Block :=
  mkBlock (mkLayerNorm [1] [0])
    (mkAttn (mkLinear [[1]; [1]; [1]] (Some [0; 0; 0])) (tiny_linear 1) 1 1)
    (mkLayerNorm [1] [0])
    (mkMLP (tiny_linear 1) (tiny_linear 1)).

Definition tiny_tables
  : embedding_shapes (Init.mkConfig 4 2 1 1 1) [[1]; [2]] [[0]; [0]; [0]; [0]] :=
  ltac:(repeat split; repeat constructor).

Definition tiny_gpt : GPT :=
  mkGPT (Init.mkConfig 4 2 1 1 1) [[1]; [2]] [[0]; [0]; [0]; [0]]
    [tiny_block] (mkLayerNorm [1] [0]) tiny_tables.

Lemma take_imap {A B : Type} (f : nat -> A -> B) n l :
  take n (imap f l) = imap f (take n l).
Proof.
  revert f n. induction l as [|x l IH]; intros f [|n]; simpl; try done.
  f_equal. apply IH.
Qed.

Lemma take_zip_with {A B C : Type} (f : A -> B -> C) n l k :
  take n (zip_with f l k) = zip_with f (take n l) (take n k).
Proof.
  revert n k. induction l as [|x l IH]; intros [|n] [|y k]; simpl; try done.
  f_equal. apply IH.
Qed.

(** Entries that are 0 from position [n] on do not change a sum. *)
Lemma vsum_take_zero n : forall l,
  (forall j x, (n <= j)%nat -> l !! j = Some x -> x = 0) ->
  vsum (take n l) = vsum l.
Proof.
  induction n as [|n IH]; intros l Hz.
  - rewrite take_0. simpl. induction l as [|x l IHl]; [done|]. simpl.
    rewrite <- IHl.
    + rewrite (Hz 0%nat x); [lra | lia | done].
    + intros j y Hj Hy. apply (Hz (S j) y); [lia | done].
  - destruct l as [|x l]; [done|]. simpl. f_equal.
    apply IH. intros j y Hj Hy. apply (Hz (S j) y); [lia | done].
Qed.

Lemma masked_exp_zero i scores j x :
  (i < j)%nat -> masked_exp i scores !! j = Some x -> x = 0.
Proof.
  unfold masked_exp. rewrite list_lookup_imap. intros Hij Hx.
  destruct (scores !! j); simpl in Hx; [|done].
  injection Hx as <-. by rewrite decide_False by lia.
Qed.

Lemma softmax_masked_take i n scores :
  (i < n)%nat ->
  softmax_masked i (take n scores) = take n (softmax_masked i scores).
Proof.
  intros Hin. unfold softmax_masked, masked_exp.
  rewrite <- take_imap. fold (masked_exp i scores).
  rewrite vsum_take_zero.
  - apply fmap_take.
  - intros j x Hj. apply masked_exp_zero. lia.
Qed.

Lemma softmax_masked_zero i scores j x :
  (i < j)%nat -> softmax_masked i scores !! j = Some x -> x = 0.
Proof.
  unfold softmax_masked. rewrite list_lookup_fmap. intros Hij Hx.
  destruct (masked_exp i scores !! j) as [w|] eqn:Hw; simpl in Hx; [|done].
  injection Hx as <-. rewrite (masked_exp_zero _ _ _ _ Hij Hw).
  unfold Rdiv. apply Rmult_0_l.
Qed.

(** The output of a query position depends on the keys and values of the
    positions up to it only. *)
Lemma attend_prefix hs i n q ks vs :
  (i < n)%nat ->
  attend hs i q (take n ks) (take n vs) = attend hs i q ks vs.
Proof.
  intros Hin. unfold attend.
  rewrite fmap_take, softmax_masked_take by done.
  apply map_ext. intros c.
  rewrite <- take_zip_with. apply vsum_take_zero.
  intros j x Hj Hx. apply lookup_zip_with_Some in Hx as (pj & v & -> & Hp & _).
  assert (Hij : (i < j)%nat) by lia.
  rewrite (softmax_masked_zero _ _ _ _ Hij Hp). apply Rmult_0_l.
Qed.

Lemma causal_attn_forward a : causal (attn_forward a).
Proof.
  intros n xs. unfold attn_forward.
  rewrite <- fmap_take, take_imap. f_equal.
  rewrite <- !fmap_take.
  apply imap_ext. intros i qi Hi. simpl.
  assert (Hin : (i < n)%nat).
  { apply lookup_lt_Some in Hi. rewrite !length_map, length_take in Hi. lia. }
  f_equal. apply map_ext. intros hd.
  rewrite !fmap_take. symmetry. by apply attend_prefix.
Qed.

Lemma causal_Block_forward b : causal (Block_forward b).
Proof.
  intros n xs. unfold Block_forward.
  rewrite take_zip_with, <- !fmap_take, take_zip_with, causal_attn_forward.
  by rewrite <- fmap_take.
Qed.

Lemma causal_blocks bs : causal (fun x => foldl (fun x b => Block_forward b x) x bs).
Proof.
  induction bs as [|b bs IH]; intros n xs; simpl; [done|].
  by rewrite IH, causal_Block_forward.
Qed.

Lemma causal_logits_row m : causal (logits_row m).
Proof.
  intros n idx. unfold logits_row, embed.
  by rewrite <- !fmap_take, causal_blocks, take_imap.
Qed.

(** The logits at position [i] are a function of the tokens up to [i]. *)
Lemma logits_row_prefix m i idx idx' :
  take (S i) idx = take (S i) idx' ->
  logits_row m idx !! i = logits_row m idx' !! i.
Proof.
  intros Heq.
  rewrite <- (lookup_take_lt (logits_row m idx) (S i) i) by lia.
  rewrite <- (lookup_take_lt (logits_row m idx') (S i) i) by lia.
  by rewrite !causal_logits_row, Heq.
Qed.

Lemma length_attn_forward a xs : length (attn_forward a xs) = length xs.
Proof. unfold attn_forward. by rewrite length_map, length_imap, !length_map. Qed.

Lemma length_Block_forward b xs : length (Block_forward b xs) = length xs.
Proof.
  unfold Block_forward.
  rewrite length_zip_with, !length_map, length_zip_with, length_attn_forward,
    length_map. lia.
Qed.

Lemma length_blocks bs : forall xs,
  length (foldl (fun x b => Block_forward b x) xs bs) = length xs.
Proof.
  induction bs as [|b bs IH]; intros xs; simpl; [done|].
  by rewrite IH, length_Block_forward.
Qed.

Lemma length_logits_row m idx : length (logits_row m idx) = length idx.
Proof.
  unfold logits_row, embed. by rewrite !length_map, length_blocks, length_imap.
Qed.

Lemma logits_row_width m idx :
  Forall (fun z => length z = length (wte m)) (logits_row m idx).
Proof.
  unfold logits_row. apply Forall_forall. intros z Hz.
  apply list_elem_of_In, in_map_iff in Hz as (x & <- & _).
  unfold linear, lm_head; simpl. apply length_map.
Qed.

(** A sequence-length failure is exactly a failed assertion of line 99. *)
Lemma forward_too_long m T idx targets :
  forward m T idx targets = inl SequenceTooLong
  <-> (Init.block_size (config m) < T)%nat.
Proof.
  unfold forward.
  destruct (decide (T <= Init.block_size (config m))%nat) as [Hle|Hgt].
  - split; [|lia].
    destruct (decide (T <= length (wpe m))%nat); [|done].
    destruct (decide _); [|done]. destruct targets as [tg|]; [|done].
    by destruct (decide _).
  - split; [lia|done].
Qed.

(** Under the assertion of line 99 and with token ids in the vocabulary,
    the two lookups of lines 101-102 are inside their tables and the two
    embeddings they return have the same width, so their sum is the sum
    of two [n_embd]-vectors. *)
Lemma embed_in_range (m : GPT) (r : list nat) (pos tok : nat) :
  (length r <= Init.block_size (config m))%nat ->
  Forall (fun tok => (tok < Init.vocab_size (config m))%nat) r ->
  r !! pos = Some tok ->
  exists e p,
    wte m !! tok = Some e /\ wpe m !! pos = Some p /\
    length e = Init.n_embd (config m) /\ length p = Init.n_embd (config m) /\
    embed m r !! pos = Some (vadd e p).
Proof.
  intros Hlen Hr Hpos. destruct (tables m) as (Hv & Hb & Hwte & Hwpe).
  assert (Htok : (tok < length (wte m))%nat).
  { rewrite Hv. by apply (proj1 (Forall_lookup _ _) Hr pos). }
  assert (Hp : (pos < length (wpe m))%nat).
  { rewrite Hb. apply lookup_lt_Some in Hpos. lia. }
  destruct (lookup_lt_is_Some_2 _ _ Htok) as [e He].
  destruct (lookup_lt_is_Some_2 _ _ Hp) as [p Hp'].
  exists e, p. split; [done|]. split; [done|].
  split; [by apply (proj1 (Forall_lookup _ _) Hwte tok)|].
  split; [by apply (proj1 (Forall_lookup _ _) Hwpe pos)|].
  unfold embed. rewrite list_lookup_imap, Hpos. simpl.
  f_equal. f_equal.
  - by destruct (wte m !! tok); simplify_eq.
  - by destruct (wpe m !! pos); simplify_eq.
Qed.

(** C9: the forward pass fails with the sequence-length error if and
    only if [T] exceeds [block_size]; on an input of shape [[B, T]] with
    [T <= block_size], whose token ids lie in the vocabulary, it raises
    nothing: every position and every token id it looks up is inside its
    embedding table (the position table has [block_size] rows, line 76),
    the two embeddings have the same width, and it returns logits of
    shape [[B, T, vocab_size]]. *)
Theorem forward_fails_iff_sequence_too_long (m : GPT) (B T : nat)
    (idx : list (list nat)) (targets : option (list (list nat))) :
  has_shape B T idx ->
  tokens_in_range (Init.vocab_size (config m)) idx ->
  targets_ok m B T targets ->
  (forward m T idx targets = inl SequenceTooLong
   <-> (Init.block_size (config m) < T)%nat) /\
  ((T <= Init.block_size (config m))%nat ->
   (exists logits loss,
      forward m T idx targets = inr (logits, loss) /\
      length logits = B /\
      Forall (fun row => length row = T /\
                Forall (fun z => length z = Init.vocab_size (config m)) row) logits) /\
   (forall r pos tok, r ∈ idx -> r !! pos = Some tok ->
      exists e p,
        wte m !! tok = Some e /\ wpe m !! pos = Some p /\
        length e = Init.n_embd (config m) /\ length p = Init.n_embd (config m) /\
        embed m r !! pos = Some (vadd e p))).
Proof.
  intros [HB HT] Htok Htg. split; [apply forward_too_long|].
  destruct (tables m) as (Hv & Hb & _).
  intros Hle. split.
  - unfold forward. rewrite decide_True by done.
    rewrite decide_True by (by rewrite Hb).
    rewrite decide_True by (by rewrite Hv).
    assert (Hshape : length (map (logits_row m) idx) = B /\
              Forall (fun row => length row = T /\
                 Forall (fun z => length z = Init.vocab_size (config m)) row)
                (map (logits_row m) idx)).
    { split; [by rewrite length_map|].
      apply Forall_forall. intros row Hrow.
      apply list_elem_of_In, in_map_iff in Hrow as (r & <- & Hr).
      split.
      + rewrite length_logits_row.
        by apply (proj1 (Forall_forall _ _) HT), list_elem_of_In.
      + rewrite <- Hv. apply logits_row_width. }
    destruct targets as [tg|].
    + simpl in Htg. rewrite decide_True by (by rewrite HB). eauto.
    + eauto.
  - intros r pos tok Hr Hpos. apply embed_in_range; [|by apply (proj1 (Forall_forall _ _) Htok)|done].
    by rewrite (proj1 (Forall_forall _ _) HT r Hr).
Qed.

Lemma tiny_tokens_in_range (a : list (list nat)) :
  Forall (Forall (fun tok => (tok < 2)%nat)) a ->
  tokens_in_range (length (wte tiny_gpt)) a.
Proof. done. Qed.

Lemma forward_fails_iff_sequence_too_long_witness :
  (forward tiny_gpt 3 [[0; 1; 0]; [1; 1; 0]]%nat None = inl SequenceTooLong
   <-> (4 < 3)%nat) /\
  ((3 <= 4)%nat ->
   (exists logits loss,
      forward tiny_gpt 3 [[0; 1; 0]; [1; 1; 0]]%nat None = inr (logits, loss) /\
      length logits = 2%nat /\
      Forall (fun row => length row = 3%nat /\
                Forall (fun z => length z = 2%nat) row) logits) /\
   (forall r pos tok, r ∈ [[0; 1; 0]; [1; 1; 0]]%nat -> r !! pos = Some tok ->
      exists e p,
        wte tiny_gpt !! tok = Some e /\ wpe tiny_gpt !! pos = Some p /\
        length e = 1%nat /\ length p = 1%nat /\
        embed tiny_gpt r !! pos = Some (vadd e p))).
Proof.
  apply (forward_fails_iff_sequence_too_long tiny_gpt 2 3
           [[0; 1; 0]; [1; 1; 0]]%nat None).
  - split; [reflexivity|]. repeat constructor.
  - apply tiny_tokens_in_range. repeat constructor.
  - exact I.
Defined.

(** C7: two forward runs on inputs of the same shape that agree, row by
    row, on the token ids at positions [<= i] return the same logits at
    position [i] of every row. *)
Theorem forward_logits_causal (m : GPT) (T i : nat)
    (idx idx' : list (list nat)) (lg lg' : list (list vec)) :
  forward m T idx None = inr (lg, None) ->
  forward m T idx' None = inr (lg', None) ->
  (forall b r r', idx !! b = Some r -> idx' !! b = Some r' ->
                  take (S i) r = take (S i) r') ->
  forall b row row', lg !! b = Some row -> lg' !! b = Some row' ->
                     row !! i = row' !! i.
Proof.
  intros Hf Hf' Hagree b row row' Hrow Hrow'.
  unfold forward in Hf, Hf'.
  destruct (decide (T <= Init.block_size _)%nat); [|done].
  destruct (decide (T <= length _)%nat); [|done].
  destruct (decide (tokens_in_range _ idx)); [|done].
  destruct (decide (tokens_in_range _ idx')); [|done].
  injection Hf as <-. injection Hf' as <-.
  rewrite list_lookup_fmap in Hrow, Hrow'.
  destruct (idx !! b) as [r|] eqn:Hr; [|done].
  destruct (idx' !! b) as [r'|] eqn:Hr'; [|done].
  injection Hrow as <-. injection Hrow' as <-.
  apply logits_row_prefix. by apply (Hagree b).
Qed.

Lemma forward_logits_causal_witness :
  logits_row tiny_gpt [0; 1; 0]%nat !! 1%nat
  = logits_row tiny_gpt [0; 1; 1]%nat !! 1%nat.
Proof.
  assert (Hf : forall idx,
            Forall (Forall (fun tok => (tok < 2)%nat)) idx ->
            forward tiny_gpt 3 idx None
            = inr (map (logits_row tiny_gpt) idx, None)).
  { intros idx Hidx. unfold forward.
    rewrite decide_True by (simpl; lia).
    rewrite decide_True by (simpl; lia).
    by rewrite decide_True by (by apply tiny_tokens_in_range). }
  assert (H1 : Forall (Forall (fun tok => (tok < 2)%nat)) [[0; 1; 0]]%nat)
    by repeat constructor.
  assert (H2 : Forall (Forall (fun tok => (tok < 2)%nat)) [[0; 1; 1]]%nat)
    by repeat constructor.
  apply (forward_logits_causal tiny_gpt 3 1 [[0; 1; 0]]%nat [[0; 1; 1]]%nat
           _ _ (Hf _ H1) (Hf _ H2)) with (b := 0%nat).
  - intros [|b] r r' Hr Hr'; [|done].
    injection Hr as <-. injection Hr' as <-. reflexivity.
  - reflexivity.
  - reflexivity.
Defined.

End Model.

(** ** One optimizer step with gradient accumulation *)

Module Accumulation.

Import Model.

Local Open Scope R_scope.

(** A micro-batch as [next_batch] returns it: inputs and targets. *)
Definition batch : Type := (list (list nat) * list (list nat))%type.

Inductive step_error :=
  | ForwardError (e : error)
  | ScheduleAssertion.

(** [torch.nn.utils.clip_grad_norm_(params, max_norm)]: the gradients
    scaled in place, and the norm they had. *)
Definition clip_grad_norm_ (max_norm : R) (g : list R) : list R * R :=
  let total_norm := sqrt (vsum (map (fun x => x * x) g)) in
  let clip_coef := Rmin 1 (max_norm / (total_norm + 1e-6)) in
  (map (fun x => x * clip_coef) g, total_norm).

(** The gradient buffers after [zero_grad] are unset; a backward pass
    sets or adds to them. *)
Definition accumulate (acc : option (list R)) (g : list R) : option (list R) :=
  Some (match acc with None => g | Some a => vadd a g end).

(** The same data as one batch of [k*B] rows. *)
Definition concat_batches (batches : list batch) : batch :=
  (concat (map fst batches), concat (map snd batches)).

(** The flattened logits of a batch and the sum of its per-position
    losses. *)
Definition flat_logits (m : GPT) (x : list (list nat)) : list vec :=
  concat (map (logits_row m) x).

Definition nll_sum (m : GPT) (b : batch) : R :=
  vsum (zip_with nll (flat_logits m b.1) (concat b.2)).

Definition shapes_ok (B T : nat) (b : batch) : Prop :=
  has_shape B T b.1 /\ has_shape B T b.2.

(** A micro-batch the forward pass accepts: inputs and targets of shape
    [[B, T]] over the vocabulary. *)
Definition micro_batch_ok (m : GPT) (B T : nat) (b : batch) : Prop :=
  shapes_ok B T b /\
  tokens_in_range (length (wte m)) b.1 /\ tokens_in_range (length (wte m)) b.2.

Section Step.

(** [loss.backward()]: what differentiating a scalar function of the
    parameters at the current parameters adds to the gradient buffers
    (all parameters flattened into one list).  It is only assumed to be
    linear in the function, as differentiation is. *)
Variable backward_of : (GPT -> R) -> GPT -> list R.

Hypothesis backward_ext : forall f g m,
  (forall m', f m' = g m') -> backward_of f m = backward_of g m.

Hypothesis backward_add : forall f g m,
  backward_of (fun m' => f m' + g m') m = vadd (backward_of f m) (backward_of g m).

(** The optimizer: its state, and [optimizer.step()] as a function of the
    learning rate, the parameters and the (clipped) gradients. *)
Variable optimizer_state : Type.
Variable optimizer_step :
  R -> GPT -> option (list R) -> optimizer_state -> GPT * optimizer_state.

(** One micro-step, lines 341-350: forward, [loss / grad_accum_steps],
    backward. *)
Definition micro_step (m : GPT) (T grad_accum_steps : nat)
    (acc : step_error + option (list R)) (b : batch)
  : step_error + option (list R) :=
  match acc with
  | inl e => inl e
  | inr a =>
      match forward m T b.1 (Some b.2) with
      | inl e => inl (ForwardError e)
      | inr _ =>
          inr (accumulate a
                 (backward_of
                    (fun m' => loss_value m' b.1 b.2 / INR grad_accum_steps) m))
      end
  end.

(** [optimizer.zero_grad()] followed by the micro-step loop. *)
Definition accumulated_gradient (m : GPT) (T grad_accum_steps : nat)
    (batches : list batch) : step_error + option (list R) :=
  foldl (micro_step m T grad_accum_steps) (inr None) batches.

(** One iteration of the training loop, lines 337-357, on the
    micro-batches the loader supplied. *)
Definition train_step (m : GPT) (st : optimizer_state) (step : Z)
    (T grad_accum_steps : nat) (batches : list batch)
  : step_error + (GPT * optimizer_state) :=
  match accumulated_gradient m T grad_accum_steps batches with
  | inl e => inl e
  | inr g =>
      let clipped := (fun g => (clip_grad_norm_ 1.0 g).1) <$> g in
      match Schedule.get_lr step with
      | None => inl ScheduleAssertion
      | Some lr => inr (optimizer_step lr m clipped st)
      end
  end.

(** An instance: a difference quotient along one direction of parameter
    space as the (linear) backward operator, and a gradient step on the
    final normalisation's shift as the optimizer. *)
Definition nudge (m : GPT) : GPT :=
  mkGPT (config m) (wte m) (wpe m) (h m)
    (mkLayerNorm (ln_weight (ln_f m)) (map (fun b => b + 1) (ln_bias (ln_f m))))
    (tables m).

Definition difference_quotient (f : GPT -> R) (m : GPT) : list R :=
  [f (nudge m) - f m].

Definition shift_step (lr : R) (m : GPT) (g : option (list R)) (st : unit)
  : GPT * unit :=
  (mkGPT (config m) (wte m) (wpe m) (h m)
     (mkLayerNorm (ln_weight (ln_f m))
        (map (fun b => b - lr * hd 0 (default [] g)) (ln_bias (ln_f m))))
     (tables m), st).

Lemma vsum_app (a b : vec) : vsum (a ++ b) = vsum a + vsum b.
Proof. induction a as [|x a IH]; simpl; [lra|]. rewrite IH. lra. Qed.

Lemma length_concat_shape {A : Type} (B T : nat) (y : list (list A)) :
  length y = B -> Forall (fun r => length r = T) y ->
  length (concat y) = (B * T)%nat.
Proof.
  intros <- Hall. induction Hall as [|r y Hr _ IH]; simpl; [done|].
  rewrite length_app, IH, Hr. lia.
Qed.

Lemma length_flat_logits (m : GPT) (B T : nat) (x : list (list nat)) :
  has_shape B T x -> length (flat_logits m x) = (B * T)%nat.
Proof.
  intros [HB HT]. unfold flat_logits. apply length_concat_shape.
  - by rewrite length_map.
  - apply Forall_fmap. eapply Forall_impl; [exact HT|].
    intros r Hr. simpl. by rewrite length_logits_row.
Qed.

Lemma flat_logits_app (m : GPT) (x x' : list (list nat)) :
  flat_logits m (x ++ x') = flat_logits m x ++ flat_logits m x'.
Proof. unfold flat_logits. by rewrite map_app, concat_app. Qed.

Lemma loss_value_nll_sum (m : GPT) (B T : nat) (b : batch) :
  has_shape B T b.1 ->
  loss_value m b.1 b.2 = nll_sum m b / INR (B * T).
Proof.
  intros Hx. unfold loss_value, cross_entropy, nll_sum.
  fold (flat_logits m b.1). by rewrite (length_flat_logits m B T).
Qed.

Lemma concat_batches_shape (B T : nat) (batches : list batch) :
  Forall (shapes_ok B T) batches ->
  has_shape (length batches * B) T (concat_batches batches).1 /\
  has_shape (length batches * B) T (concat_batches batches).2.
Proof.
  unfold concat_batches, has_shape. simpl.
  induction 1 as [|b bs [[Hx1 Hx2] [Hy1 Hy2]] _ IH]; simpl; [done|].
  destruct IH as [[IHx1 IHx2] [IHy1 IHy2]].
  rewrite !length_app, !Forall_app. repeat split; try done; lia.
Qed.

(** The per-position losses of the concatenated batch are those of the
    micro-batches, one after the other. *)
Lemma nll_sum_concat_batches (m : GPT) (B T : nat) (batches : list batch) :
  Forall (shapes_ok B T) batches ->
  nll_sum m (concat_batches batches)
  = foldr (fun b s => nll_sum m b + s) 0 batches.
Proof.
  unfold nll_sum, concat_batches. simpl.
  induction 1 as [|b bs [Hx [Hy1 Hy2]] _ IH]; simpl; [done|].
  rewrite flat_logits_app, concat_app, zip_with_app, vsum_app, IH; [done|].
  rewrite (length_flat_logits m B T) by done.
  by rewrite (length_concat_shape B T).
Qed.

Lemma foldl_Rplus_foldr {A : Type} (f : A -> R) (l : list A) : forall a,
  foldl (fun s b => s + f b) a l = a + foldr (fun b s => f b + s) 0 l.
Proof.
  induction l as [|b l IH]; intros a; simpl; [lra|]. rewrite IH. lra.
Qed.

Lemma foldr_scale {A : Type} (f : A -> R) (c : R) (l : list A) :
  foldr (fun b s => f b * c + s) 0 l = foldr (fun b s => f b + s) 0 l * c.
Proof. induction l as [|b l IH]; simpl; [lra|]. rewrite IH. lra. Qed.

Lemma nll_sum_empty (m : GPT) (B T : nat) (b : batch) :
  has_shape B T b.1 -> (B * T = 0)%nat -> nll_sum m b = 0.
Proof.
  intros Hx H0. unfold nll_sum.
  pose proof (length_flat_logits m B T b.1 Hx) as Hlen. rewrite H0 in Hlen.
  destruct (flat_logits m b.1); [done|]. simpl in Hlen. lia.
Qed.

(** The mean loss of the concatenated batch is the sum of the scaled
    micro-batch losses, whatever the parameters. *)
Lemma scaled_losses_sum (m : GPT) (B T : nat) (batches : list batch) :
  (1 <= length batches)%nat ->
  Forall (shapes_ok B T) batches ->
  foldr (fun b s => loss_value m b.1 b.2 / INR (length batches) + s) 0 batches
  = loss_value m (concat_batches batches).1 (concat_batches batches).2 / INR 1.
Proof.
  intros Hk Hall.
  destruct (concat_batches_shape B T batches Hall) as [Hcx _].
  rewrite (loss_value_nll_sum m (length batches * B) T (concat_batches batches)) by done.
  rewrite nll_sum_concat_batches with (B := B) (T := T) by done.
  set (k := length batches) in *.
  assert (Hk' : 1 <= INR k) by (apply (le_INR 1); lia).
  transitivity (foldr (fun b s => nll_sum m b * (/ INR (B * T) * / INR k) + s) 0 batches).
  { clearbody k. clear Hcx.
    induction Hall as [|b bs [Hx _] _ IH]; simpl; [done|].
    rewrite IH, (loss_value_nll_sum m B T) by done. unfold Rdiv. lra. }
  rewrite foldr_scale. simpl INR. unfold Rdiv. rewrite Rinv_1, Rmult_1_r.
  destruct (decide (B * T = 0)%nat) as [H0|Hne].
  - assert (Hz : foldr (fun b s => nll_sum m b + s) 0 batches = 0).
    { clear -Hall H0. induction Hall as [|b bs [Hx _] _ IH]; simpl; [done|].
      rewrite IH, (nll_sum_empty m B T) by done. lra. }
    rewrite Hz. lra.
  - f_equal. replace (k * B * T)%nat with (k * (B * T))%nat by lia.
    rewrite !mult_INR, !Rinv_mult. ring.
Qed.

Lemma forward_micro_batch (m : GPT) (B T : nat) (b : batch) :
  (T <= Init.block_size (config m))%nat -> micro_batch_ok m B T b ->
  exists r, forward m T b.1 (Some b.2) = inr r.
Proof.
  intros HT ([[HxB HxT] Hy] & Hxr & Hyr). unfold forward.
  destruct (tables m) as (_ & Hb & _).
  rewrite decide_True by done. rewrite decide_True by (by rewrite Hb).
  rewrite decide_True by done. rewrite decide_True by (by rewrite HxB). eauto.
Qed.

Lemma micro_batch_ok_shapes (m : GPT) (B T : nat) (batches : list batch) :
  Forall (micro_batch_ok m B T) batches -> Forall (shapes_ok B T) batches.
Proof. intros H. eapply Forall_impl; [exact H|]. by intros b [Hb _]. Qed.

Lemma concat_batches_ok (m : GPT) (B T : nat) (batches : list batch) :
  Forall (micro_batch_ok m B T) batches ->
  micro_batch_ok m (length batches * B) T (concat_batches batches).
Proof.
  intros Hall. split.
  - apply concat_batches_shape. by apply (micro_batch_ok_shapes m).
  - unfold concat_batches, tokens_in_range. simpl.
    induction Hall as [|b bs (_ & Hx & Hy) _ [IHx IHy]]; simpl; [done|].
    rewrite !Forall_app. done.
Qed.

Lemma micro_step_first (m : GPT) (B T k : nat) (b : batch) :
  (T <= Init.block_size (config m))%nat -> micro_batch_ok m B T b ->
  micro_step m T k (inr None) b
  = inr (Some (backward_of (fun m' => loss_value m' b.1 b.2 / INR k) m)).
Proof.
  intros HT Hb. unfold micro_step.
  by destruct (forward_micro_batch m B T b HT Hb) as [r ->].
Qed.

Lemma foldl_micro_step (m : GPT) (B T k : nat) (rest : list batch) :
  (T <= Init.block_size (config m))%nat ->
  Forall (micro_batch_ok m B T) rest ->
  forall g0,
    foldl (micro_step m T k) (inr (Some (backward_of g0 m))) rest
    = inr (Some (backward_of
                   (fun m' => foldl (fun s b => s + loss_value m' b.1 b.2 / INR k)
                                (g0 m') rest) m)).
Proof.
  intros HT. induction 1 as [|b bs Hb _ IH]; intros g0; simpl; [done|].
  destruct (forward_micro_batch m B T b HT Hb) as [r ->].
  unfold accumulate. rewrite <- backward_add. apply IH.
Qed.

(** C3: [k >= 1] micro-steps on micro-batches of shape [[B, T]], each
    adding the gradient of its mean loss divided by [k] to buffers cleared
    beforehand, leave in the buffers the gradient of the mean loss over the
    one batch of [k*B] rows; the clipping and the optimizer step that follow
    therefore make the same update as a step on that batch (in exact
    arithmetic, the arithmetic of this model). *)
Theorem accumulation_matches_large_batch (m : GPT) (st : optimizer_state)
    (step : Z) (B T k : nat) (batches : list batch) :
  (1 <= k)%nat -> length batches = k ->
  (T <= Init.block_size (config m))%nat ->
  Forall (micro_batch_ok m B T) batches ->
  has_shape (k * B) T (concat_batches batches).1 /\
  exists g lr,
    g = backward_of (fun m' => loss_value m' (concat_batches batches).1
                                 (concat_batches batches).2) m /\
    accumulated_gradient m T k batches = inr (Some g) /\
    accumulated_gradient m T 1 [concat_batches batches] = inr (Some g) /\
    Schedule.get_lr step = Some lr /\
    train_step m st step T k batches
      = inr (optimizer_step lr m (Some (clip_grad_norm_ 1.0 g).1) st) /\
    train_step m st step T 1 [concat_batches batches]
      = train_step m st step T k batches.
Proof.
  intros Hk Hlen HT Hall.
  pose proof (concat_batches_ok m B T batches Hall) as Hbig. rewrite Hlen in Hbig.
  split; [apply Hbig|].
  destruct (Schedule.get_lr_total step) as [lr Hlr].
  assert (Hacc : accumulated_gradient m T k batches
                 = inr (Some (backward_of
                     (fun m' => loss_value m' (concat_batches batches).1
                                  (concat_batches batches).2) m))).
  { unfold accumulated_gradient.
    destruct batches as [|b1 rest]; [simpl in Hlen; lia|].
    apply Forall_cons in Hall as Hall'. destruct Hall' as [Hb1 Hrest].
    cbn [foldl]. rewrite (micro_step_first m B T) by done.
    rewrite (foldl_micro_step m B T) by done. do 2 f_equal.
    apply backward_ext. intros m'.
    rewrite foldl_Rplus_foldr.
    pose proof (scaled_losses_sum m' B T (b1 :: rest) ltac:(simpl; lia)
                  (micro_batch_ok_shapes m B T _ Hall)) as Hsum.
    rewrite Hlen in Hsum. cbn [foldr] in Hsum. rewrite Hsum.
    simpl INR. unfold Rdiv. by rewrite Rinv_1, Rmult_1_r. }
  assert (Hone : accumulated_gradient m T 1 [concat_batches batches]
                 = inr (Some (backward_of
                     (fun m' => loss_value m' (concat_batches batches).1
                                  (concat_batches batches).2) m))).
  { unfold accumulated_gradient. cbn [foldl].
    rewrite (micro_step_first m (k * B) T) by done. do 2 f_equal.
    apply backward_ext. intros m'. simpl INR. unfold Rdiv.
    by rewrite Rinv_1, Rmult_1_r. }
  eexists _, lr. split; [reflexivity|].
  split; [exact Hacc|]. split; [exact Hone|]. split; [exact Hlr|].
  unfold train_step. rewrite Hacc, Hone, Hlr. done.
Qed.

End Step.

Lemma accumulation_matches_large_batch_witness :
  exists g,
    accumulated_gradient difference_quotient tiny_gpt 2 2
      [([[0; 1]], [[1; 0]]); ([[1; 1]], [[0; 1]])]%nat = inr (Some g) /\
    accumulated_gradient difference_quotient tiny_gpt 2 1
      [([[0; 1]; [1; 1]], [[1; 0]; [0; 1]])]%nat = inr (Some g).
Proof.
  destruct (accumulation_matches_large_batch difference_quotient
              ltac:(intros f g m Hfg; unfold difference_quotient; by rewrite !Hfg)
              ltac:(intros f g m; unfold difference_quotient, vadd; simpl;
                    f_equal; lra)
              unit shift_step tiny_gpt tt 0%Z 1 2 2
              [([[0; 1]], [[1; 0]]); ([[1; 1]], [[0; 1]])]%nat
              ltac:(lia) eq_refl ltac:(simpl; lia)
              ltac:(repeat constructor))
    as (_ & g & lr & _ & H1 & H2 & _).
  exists g. split; [exact H1 | exact H2].
Defined.

End Accumulation.

(** ** More on the data loader: what a call returns, coverage of a shard,
    [reset] *)

Module LoaderFacts.

Import Loader.

(** The batches returned by [n] successive calls of [next_batch]. *)
Fixpoint collect (n : nat) (d : DataLoaderLite)
  : option (list (list (list nat) * list (list nat))) :=
  match n with
  | O => Some []
  | S n' =>
      r ← next_batch d;
      rest ← collect n' r.2;
      Some (r.1 :: rest)
  end.

(** The inputs, respectively the targets, of a list of batches, flattened
    in the order they were read. *)
Definition inputs_of (bs : list (list (list nat) * list (list nat))) : list nat :=
  concat (map (fun xy => concat xy.1) bs).

Definition targets_of (bs : list (list (list nat) * list (list nat))) : list nat :=
  concat (map (fun xy => concat xy.2) bs).

(** The cached tokens are those of the current shard. *)
Definition coherent (d : DataLoaderLite) : Prop :=
  current_shard d < length (shards d) /\
  tokens d = load_tokens (shards d) (current_shard d).

Lemma concat_rows_from (t : nat) (l : list nat) (b : nat) : forall k,
  concat (map (fun i => take t (drop (i * t) l)) (seq k b))
  = take (b * t) (drop (k * t) l).
Proof.
  induction b as [|b IH]; intros k; simpl; [done|].
  rewrite IH. replace (S k * t) with (k * t + t) by lia.
  rewrite <- drop_drop. apply take_take_drop.
Qed.

Lemma concat_rows (b t : nat) (l : list nat) :
  length l = b * t -> concat (rows b t l) = l.
Proof.
  intros Hl. unfold rows. rewrite concat_rows_from. simpl. rewrite drop_0.
  apply take_ge. lia.
Qed.

Lemma rows_shape (b t : nat) (l : list nat) :
  length l = b * t ->
  length (rows b t l) = b /\ Forall (fun r => length r = t) (rows b t l).
Proof.
  intros Hl. unfold rows. split; [by rewrite length_map, length_seq|].
  apply Forall_forall. intros r Hr.
  apply list_elem_of_In, in_map_iff in Hr as (i & <- & Hi).
  apply in_seq in Hi. rewrite length_take, length_drop. nia.
Qed.

Lemma view_inv (b t : nat) (l : list nat) (r : list (list nat)) :
  view b t l = Some r -> length l = b * t /\ r = rows b t l.
Proof.
  unfold view. destruct (decide _); [|done]. intros H. by injection H as <-.
Qed.

Lemma next_batch_inv (d : DataLoaderLite) x y d' :
  next_batch d = Some ((x, y), d') ->
  view (B d) (T d) (take (length (read_buf d) - 1) (read_buf d)) = Some x /\
  view (B d) (T d) (drop 1 (read_buf d)) = Some y /\
  d' = advance d.
Proof.
  unfold next_batch. intros H.
  destruct (view _ _ (take _ _)) as [x'|]; simpl in H; [|done].
  destruct (view _ _ (drop _ _)) as [y'|]; simpl in H; [|done].
  by injection H as <- <- <-.
Qed.

(** X1: with a non-empty batch shape, a call of [next_batch] returns a
    batch exactly when [B*T+1] tokens are left at the cursor; otherwise the
    [view] raises. *)
Theorem next_batch_succeeds_iff_full_window (d : DataLoaderLite) :
  0 < B d * T d ->
  (is_Some (next_batch d) <-> full_window d).
Proof.
  intros Hbt. split.
  - intros [[[x y] d'] H]. apply next_batch_inv in H as (Hx & _ & _).
    apply view_inv in Hx as [Hlen _].
    rewrite length_take in Hlen. unfold read_buf in Hlen.
    rewrite length_take, length_drop in Hlen. unfold full_window. lia.
  - intros Hf. rewrite next_batch_full by done. eauto.
Qed.

Lemma next_batch_succeeds_iff_full_window_witness :
  (is_Some (next_batch (mkLoader 2 4 0 1 [seq 0 9] 0 (seq 0 9) 0))
   <-> full_window (mkLoader 2 4 0 1 [seq 0 9] 0 (seq 0 9) 0)) /\
  (is_Some (next_batch (mkLoader 2 4 0 1 [seq 0 8] 0 (seq 0 8) 0))
   <-> full_window (mkLoader 2 4 0 1 [seq 0 8] 0 (seq 0 8) 0)).
Proof.
  split; apply next_batch_succeeds_iff_full_window; simpl; lia.
Defined.

(** X2: whatever a call returns, inputs and targets have shape [[B, T]],
    the inputs are the [B*T] tokens at the cursor, and the target at each
    position is the input of the next position (the last target being the
    token after the window). *)
Theorem next_batch_targets_are_shifted_inputs (d d' : DataLoaderLite)
    (x y : list (list nat)) :
  next_batch d = Some ((x, y), d') ->
  (length x = B d /\ Forall (fun r => length r = T d) x) /\
  (length y = B d /\ Forall (fun r => length r = T d) y) /\
  concat x = take (B d * T d) (drop (current_position d) (tokens d)) /\
  concat y = take (B d * T d) (drop (current_position d + 1) (tokens d)) /\
  (forall i, i + 1 < B d * T d -> concat y !! i = concat x !! (i + 1)).
Proof.
  intros H. apply next_batch_inv in H as (Hx & Hy & _).
  apply view_inv in Hx as [Hlx ->]. apply view_inv in Hy as [Hly ->].
  assert (Hcx : concat (rows (B d) (T d)
                  (take (length (read_buf d) - 1) (read_buf d)))
                = take (B d * T d) (drop (current_position d) (tokens d))).
  { rewrite concat_rows by done.
    rewrite length_take in Hlx. unfold read_buf in *.
    rewrite length_take, length_drop in Hlx.
    rewrite length_take, length_drop, take_take. f_equal. lia. }
  assert (Hcy : concat (rows (B d) (T d) (drop 1 (read_buf d)))
                = take (B d * T d) (drop (current_position d + 1) (tokens d))).
  { rewrite concat_rows by done.
    rewrite length_drop in Hly. unfold read_buf in *.
    rewrite length_take, length_drop in Hly.
    replace (B d * T d + 1) with (1 + B d * T d) by lia.
    rewrite <- take_drop_commute, drop_drop. do 2 f_equal; lia. }
  split; [by apply rows_shape|]. split; [by apply rows_shape|].
  split; [exact Hcx|]. split; [exact Hcy|].
  intros i Hi. rewrite Hcx, Hcy.
  rewrite !lookup_take_lt, !lookup_drop by lia. f_equal. lia.
Qed.

Lemma next_batch_targets_are_shifted_inputs_witness :
  concat [[11; 12]; [13; 14]] !! 1 = concat [[10; 11]; [12; 13]] !! (1 + 1).
Proof.
  apply (next_batch_targets_are_shifted_inputs
           (mkLoader 2 2 0 1 [seq 10 20] 0 (seq 10 20) 0)
           (mkLoader 2 2 0 1 [seq 10 20] 0 (seq 10 20) 4)
           [[10; 11]; [12; 13]] [[11; 12]; [13; 14]] eq_refl).
  simpl. lia.
Defined.

Lemma collect_cons (n : nat) (d : DataLoaderLite) x y :
  full_window d ->
  x = rows (B d) (T d) (take (B d * T d) (drop (current_position d) (tokens d))) ->
  y = rows (B d) (T d) (take (B d * T d) (drop (current_position d + 1) (tokens d))) ->
  collect (S n) d = rest ← collect n (advance d); Some ((x, y) :: rest).
Proof. intros Hf -> ->. simpl. by rewrite next_batch_full. Qed.

(** While the loader stays in its shard, the batches of a single worker
    are consecutive slices of the shard. *)
Lemma collect_single_worker (n : nat) : forall d,
  num_processes d = 1 ->
  current_position d + n * (B d * T d) + 1 <= length (tokens d) ->
  exists bs,
    collect n d = Some bs /\ length bs = n /\
    inputs_of bs = take (n * (B d * T d)) (drop (current_position d) (tokens d)) /\
    targets_of bs
      = take (n * (B d * T d)) (drop (current_position d + 1) (tokens d)).
Proof.
  induction n as [|n IH]; intros d HW Hfit.
  - exists []. by rewrite !take_0.
  - assert (Hf : full_window d) by (unfold full_window; lia).
    rewrite (collect_cons n d _ _ Hf eq_refl eq_refl).
    assert (Hrest : exists bs,
              collect n (advance d) = Some bs /\ length bs = n /\
              inputs_of bs
                = take (n * (B d * T d))
                    (drop (current_position d + B d * T d) (tokens d)) /\
              targets_of bs
                = take (n * (B d * T d))
                    (drop (current_position d + B d * T d + 1) (tokens d))).
    { destruct n as [|n'].
      - exists []. by rewrite !take_0.
      - rewrite advance_fits by (rewrite HW; lia).
        destruct (IH (at_position d (current_position d + B d * T d * num_processes d)))
          as (bs & H1 & H2 & H3 & H4).
        + done.
        + unfold at_position; simpl. rewrite HW. lia.
        + unfold at_position in H3, H4; simpl in H3, H4. rewrite HW in H3, H4.
          rewrite Nat.mul_1_r in H3, H4. by exists bs. }
    destruct Hrest as (bs & -> & Hlen & Hin & Htg). simpl.
    eexists. split; [reflexivity|]. split; [simpl; by rewrite Hlen|].
    unfold inputs_of, targets_of in *. simpl. rewrite Hin, Htg.
    rewrite !concat_rows by (rewrite length_take, length_drop; lia).
    replace (current_position d + B d * T d + 1)
      with (current_position d + 1 + B d * T d) by lia.
    rewrite <- !(drop_drop (tokens d)), !take_take_drop. done.
Qed.

(** X3: a single worker sweeps a shard front to back.  With
    [n = (len - 1) / (B*T)], the first [m <= n] calls return, as inputs,
    the first [m*B*T] tokens of the shard in order, each once, and as
    targets the same slice moved by one token; the [n]-th call is the one
    that wraps, to the start of the next shard, and fewer than [B*T + 1]
    tokens at the end of the shard are never used as inputs. *)
Theorem single_worker_pass_covers_shard (b t : nat) (sh : list (list nat))
    (d0 : DataLoaderLite) :
  0 < b * t ->
  b * t + 1 <= length (load_tokens sh 0) ->
  init b t 0 1 sh = Some d0 ->
  let toks := load_tokens sh 0 in
  let n := (length toks - 1) / (b * t) in
  1 <= n /\
  length toks - n * (b * t) <= b * t /\
  (forall m, m <= n ->
     exists bs, collect m d0 = Some bs /\ length bs = m /\
       inputs_of bs = take (m * (b * t)) toks /\
       targets_of bs = take (m * (b * t)) (drop 1 toks)) /\
  (forall m, m < n ->
     exists d, run m d0 = Some d /\ current_shard d = 0 /\
               current_position d = m * (b * t)) /\
  exists d, run n d0 = Some d /\
            current_shard d = 1 `mod` length sh /\ current_position d = 0.
Proof.
  intros Hbt Hlen Hi toks n.
  destruct (init_on_stride _ _ _ _ _ _ Hi)
    as (_ & HB & HT & HR & HW & HS & HC & HK & HP).
  fold toks in HK, Hlen.
  assert (Hn : n * (b * t) <= length toks - 1 < n * (b * t) + b * t).
  { subst n. pose proof (Nat.div_mod (length toks - 1) (b * t) ltac:(lia)).
    pose proof (Nat.mod_upper_bound (length toks - 1) (b * t) ltac:(lia)). lia. }
  assert (Hn1 : 1 <= n) by (subst n; apply Nat.div_le_lower_bound; lia).
  assert (Hpos : current_position d0 = 0) by (rewrite HP; lia).
  assert (Hrun : forall m, m < n ->
            run m d0 = Some (at_position d0 (m * (b * t)))).
  { intros m Hm. rewrite run_no_wrap.
    - rewrite Hpos, HB, HT, HW. do 2 f_equal. lia.
    - lia.
    - unfold full_window. rewrite Hpos, HB, HT, HK. lia.
    - right. rewrite Hpos, HB, HT, HW, HK. nia. }
  split; [done|]. split; [lia|]. split; [|split].
  - intros m Hm.
    destruct (collect_single_worker m d0 HW) as (bs & H1 & H2 & H3 & H4).
    { rewrite Hpos, HB, HT, HK. nia. }
    rewrite Hpos, HB, HT, HK in H3, H4. rewrite drop_0 in H3. by exists bs.
  - intros m Hm. rewrite (Hrun m Hm). eexists. split; [done|].
    unfold at_position; simpl. by rewrite HC.
  - destruct n as [|n']; [lia|].
    replace (S n') with (n' + 1) by lia.
    rewrite run_app, (Hrun n') by lia. cbn [mbind option_bind].
    rewrite run_1, next_batch_full.
    2:{ unfold full_window, at_position; simpl. rewrite HB, HT, HK. lia. }
    cbn [fmap option_fmap option_map snd]. rewrite advance_wraps.
    2:{ unfold at_position; simpl. rewrite HB, HT, HW, HK. lia. }
    eexists. split; [done|]. unfold wrapped, at_position; simpl.
    rewrite HC, HS, HB, HT, HR. split; [done|lia].
Qed.

Lemma single_worker_pass_covers_shard_witness :
  exists bs,
    collect 2 (mkLoader 1 2 0 1 [seq 10 6] 0 (seq 10 6) 0) = Some bs /\
    inputs_of bs = [10; 11; 12; 13] /\ targets_of bs = [11; 12; 13; 14].
Proof.
  destruct (single_worker_pass_covers_shard 1 2 [seq 10 6]
              (mkLoader 1 2 0 1 [seq 10 6] 0 (seq 10 6) 0)
              ltac:(lia) ltac:(simpl; lia) eq_refl)
    as (_ & _ & Hcov & _).
  destruct (Hcov 2 ltac:(simpl; lia)) as (bs & H1 & _ & H2 & H3).
  exists bs. repeat split; done.
Defined.

Lemma run_config (n : nat) : forall d d',
  run n d = Some d' -> same_config d d'.
Proof.
  induction n as [|n IH]; intros d d' Hrun; simpl in Hrun.
  - by injection Hrun as <-.
  - destruct (next_batch d) as [r|] eqn:Hnb; simpl in Hrun; [|done].
    apply next_batch_advance in Hnb. rewrite Hnb in Hrun.
    pose proof (IH _ _ Hrun) as H2. pose proof (same_config_advance d) as H1.
    unfold same_config in *. intuition congruence.
Qed.

(** X4: [reset] undoes any number of calls: applied to a loader in any
    state it reached, it gives back the loader as constructed, so the
    batches read after a [reset] are the ones read the first time. *)
Theorem reset_restores_initial_state (b t rank nproc n k : nat)
    (sh : list (list nat)) (d0 d : DataLoaderLite) :
  init b t rank nproc sh = Some d0 ->
  run n d0 = Some d ->
  reset d = d0 /\ reset d0 = d0 /\ collect k (reset d) = collect k d0.
Proof.
  intros Hi Hrun.
  assert (H0 : reset d0 = d0).
  { unfold init in Hi. destruct (decide _); [|done]. by injection Hi as <-. }
  assert (Hd : reset d = d0).
  { rewrite <- H0. destruct (run_config _ _ _ Hrun) as (HB & HT & HR & HW & HS).
    unfold reset. by rewrite HB, HT, HR, HW, HS. }
  by rewrite Hd.
Qed.

Lemma reset_restores_initial_state_witness :
  reset (mkLoader 1 2 0 1 [seq 10 9; seq 50 9] 0 (seq 10 9) 6)
  = mkLoader 1 2 0 1 [seq 10 9; seq 50 9] 0 (seq 10 9) 0.
Proof.
  apply (reset_restores_initial_state 1 2 0 1 3 0 [seq 10 9; seq 50 9]
           (mkLoader 1 2 0 1 [seq 10 9; seq 50 9] 0 (seq 10 9) 0)
           (mkLoader 1 2 0 1 [seq 10 9; seq 50 9] 0 (seq 10 9) 6)
           eq_refl eq_refl).
Defined.

Lemma coherent_advance (d : DataLoaderLite) : coherent d -> coherent (advance d).
Proof.
  intros [Hs Ht]. unfold advance, coherent.
  destruct (decide _); simpl; [|done].
  split; [apply Nat.mod_upper_bound; lia | done].
Qed.

(** X5: in every state a loader reaches, also across shard changes, the
    shard index is in range and the tokens it reads from are the contents
    of the shard that index names. *)
Theorem tokens_are_those_of_current_shard (b t rank nproc n : nat)
    (sh : list (list nat)) (d0 d : DataLoaderLite) :
  init b t rank nproc sh = Some d0 ->
  run n d0 = Some d ->
  shards d = sh /\ current_shard d < length sh /\
  tokens d = load_tokens sh (current_shard d).
Proof.
  intros Hi Hrun.
  assert (H0 : coherent d0 /\ shards d0 = sh).
  { unfold init in Hi. destruct (decide _); [|done]. injection Hi as <-.
    unfold coherent, reset; simpl. done. }
  destruct H0 as [Hc Hs].
  destruct (run_config _ _ _ Hrun) as (_ & _ & _ & _ & HS).
  assert (Hd : coherent d).
  { clear Hi HS Hs. revert d0 Hc Hrun.
    induction n as [|n IH]; intros d0 Hc Hrun; simpl in Hrun.
    - by injection Hrun as <-.
    - destruct (next_batch d0) as [r|] eqn:Hnb; simpl in Hrun; [|done].
      apply next_batch_advance in Hnb. rewrite Hnb in Hrun.
      apply (IH (advance d0)); [by apply coherent_advance | done]. }
  destruct Hd as [H1 H2]. rewrite HS, Hs in *. done.
Qed.

Lemma tokens_are_those_of_current_shard_witness :
  shards (mkLoader 1 2 0 1 [seq 10 9; seq 50 9] 1 (seq 50 9) 0)
    = [seq 10 9; seq 50 9] /\
  1 < length [seq 10 9; seq 50 9] /\
  seq 50 9 = load_tokens [seq 10 9; seq 50 9] 1.
Proof.
  apply (tokens_are_those_of_current_shard 1 2 0 1 4 [seq 10 9; seq 50 9]
           (mkLoader 1 2 0 1 [seq 10 9; seq 50 9] 0 (seq 10 9) 0)
           (mkLoader 1 2 0 1 [seq 10 9; seq 50 9] 1 (seq 50 9) 0)
           eq_refl eq_refl).
Defined.

End LoaderFacts.

(** ** More on the schedule: the range of the learning rate *)

Module ScheduleFacts.

Import Schedule.

Local Open Scope R_scope.

(** [lr_in lo hi step]: the schedule is defined at [step], with a value
    in [(lo, hi]]. *)
Definition lr_in (lo hi : R) (step : Z) : Prop :=
  exists lr, get_lr step = Some lr /\ lo < lr <= hi.

Lemma cos_gt_minus_1 x : 0 <= x -> x < PI -> -1 < cos x.
Proof.
  intros H0 H1. rewrite <- cos_PI. pose proof PI_RGT_0.
  apply cos_decreasing_1; lra.
Qed.

(** X6: at every step from 0 on the learning rate is positive and at most
    [max_lr]; the warmup already reaches [max_lr] at step
    [warm_up_steps - 1]; from [warm_up_steps] to [max_steps - 1], the last
    step of the training loop, it stays strictly above [min_lr], which is
    first reached at [max_steps]. *)
Theorem get_lr_range :
  (forall step, (0 <= step)%Z -> lr_in 0 max_lr step) /\
  get_lr (warm_up_steps - 1) = Some max_lr /\
  (forall step, (warm_up_steps <= step < max_steps)%Z -> lr_in min_lr max_lr step) /\
  (forall step, (max_steps <= step)%Z -> get_lr step = Some min_lr) /\
  0 < min_lr < max_lr.
Proof.
  assert (Hmax : 0 < max_lr) by (unfold max_lr; lra).
  assert (Hmin : 0 < min_lr < max_lr) by (unfold min_lr, max_lr; lra).
  assert (Hdecay : forall step, (warm_up_steps <= step < max_steps)%Z ->
            lr_in min_lr max_lr step).
  { intros step Hs. unfold lr_in. rewrite get_lr_decay by lia.
    eexists. split; [reflexivity|].
    pose proof (decay_ratio_bounds step ltac:(lia)) as [Hlo _].
    assert (Hhi : decay_ratio step < 1).
    { unfold decay_ratio, warm_up_steps, max_steps in *.
      destruct Hs as [_ Hs]. apply IZR_lt in Hs.
      apply (Rmult_lt_reg_r (19073 - 715)); [lra|]. field_simplify; lra. }
    pose proof PI_RGT_0 as Hpi.
    assert (Hc1 : -1 < cos (PI * decay_ratio step)) by (apply cos_gt_minus_1; nra).
    pose proof (COS_bound (PI * decay_ratio step)) as [_ Hc2]. nra. }
  split; [|split; [|split; [exact Hdecay|split; [|exact Hmin]]]].
  - intros step Hs.
    destruct (Z.lt_ge_cases step warm_up_steps) as [Hw|Hw].
    + unfold lr_in. rewrite get_lr_warmup by done. eexists. split; [reflexivity|].
      assert (H1 : (step + 1 <= warm_up_steps)%Z) by lia.
      apply IZR_le in Hs, H1. rewrite plus_IZR in H1.
      unfold warm_up_steps in *. split.
      * apply Rdiv_lt_0_compat; [nra|lra].
      * apply (Rmult_le_reg_r 715); [lra|]. unfold Rdiv.
        rewrite Rmult_assoc, Rinv_l, Rmult_1_r by lra. nra.
    + destruct (Z.lt_ge_cases step max_steps) as [Hm|Hm].
      * destruct (Hdecay step ltac:(lia)) as (lr & Hlr & H1 & H2).
        exists lr. split; [done|]. lra.
      * exists min_lr. split; [|lra].
        destruct (Z.eq_dec step max_steps) as [->|Hne].
        -- rewrite get_lr_decay by (unfold warm_up_steps, max_steps; lia).
           unfold decay_ratio. f_equal.
           replace (PI * ((IZR max_steps - IZR warm_up_steps)
                          / (IZR max_steps - IZR warm_up_steps))) with PI
             by (unfold warm_up_steps, max_steps; field; lra).
           rewrite cos_PI. lra.
        -- apply get_lr_floor. lia.
  - rewrite get_lr_warmup by (unfold warm_up_steps; lia). f_equal.
    unfold warm_up_steps. rewrite minus_IZR. field.
  - intros step Hs. destruct (Z.eq_dec step max_steps) as [->|Hne].
    + rewrite get_lr_decay by (unfold warm_up_steps, max_steps; lia).
      unfold decay_ratio. f_equal.
      replace (PI * ((IZR max_steps - IZR warm_up_steps)
                     / (IZR max_steps - IZR warm_up_steps))) with PI
        by (unfold warm_up_steps, max_steps; field; lra).
      rewrite cos_PI. lra.
    + apply get_lr_floor. lia.
Qed.

End ScheduleFacts.

(** ** More on the training step: the accumulation count and the shape of
    a step *)

Module StepFacts.

Import Distributed.

#[local] Instance event_eq : EqDecision event.
Proof. solve_decision. Defined.


(** The world sizes the divisibility assertion of line 256 accepts. *)
Definition accepted_world_sizes : list N := [1; 2; 4; 8; 16]%N.

Lemma grad_accum_steps_small (w : nat) :
  w < 17 ->
  is_Some (grad_accum_steps (N.of_nat w)) -> N.of_nat w ∈ accepted_world_sizes.
Proof.
  intros Hw [k Hk]. unfold accepted_world_sizes.
  do 17 (destruct w as [|w];
         [first [ by vm_compute in Hk | vm_compute; set_solver ] |]).
  lia.
Qed.

(** X7: the script starts only with 1, 2, 4, 8 or 16 workers (any other
    world size, 0 included, fails the assertion), and then one optimizer
    step consumes exactly [total_bs] tokens:
    [grad_accum_steps * B * T * world_size = total_bs]. *)
Theorem grad_accum_steps_exact (world_size : N) :
  (is_Some (grad_accum_steps world_size) <-> world_size ∈ accepted_world_sizes) /\
  (forall k, grad_accum_steps world_size = Some k ->
     (N.of_nat k * (B * T * world_size) = total_bs)%N /\ 1 <= k).
Proof.
  split; [split|].
  - intros Hs.
    destruct (decide (world_size < 17)%N) as [Hlt|Hge].
    + rewrite <- (N2Nat.id world_size) in Hs |- *.
      apply grad_accum_steps_small; [lia | done].
    + exfalso. destruct Hs as [k Hk]. unfold grad_accum_steps in Hk.
      destruct (decide _) as [Hmod|]; [|done].
      rewrite N.mod_small in Hmod by (unfold total_bs, B, T; lia).
      unfold total_bs in Hmod. lia.
  - unfold accepted_world_sizes. intros Hin.
    repeat (apply elem_of_cons in Hin as [->|Hin]; [by vm_compute; eauto|]).
    by apply elem_of_nil in Hin.
  - intros k Hk. unfold grad_accum_steps in Hk.
    destruct (decide _) as [Hmod|]; [|done]. injection Hk as <-.
    assert (Hw : (world_size <> 0)%N).
    { intros ->. by vm_compute in Hmod. }
    pose proof (N.div_mod total_bs (B * T * world_size)
                  ltac:(unfold B, T; lia)) as Hdiv.
    rewrite Hmod, N.add_0_r in Hdiv. rewrite N2Nat.id.
    split; [lia|].
    assert (Hq : (total_bs `div` (B * T * world_size) <> 0)%N).
    { intros H0. rewrite H0 in Hdiv. unfold total_bs in Hdiv. lia. }
    revert Hq. generalize (total_bs `div` (B * T * world_size))%N. lia.
Qed.





End StepFacts.

(** ** More on the initialisation: what [_init_weights] touches *)

Module InitFacts.

Import Init.

Local Open Scope R_scope.

(** The number of modules of a tree that satisfy a test. *)
Fixpoint count_modules (P : module -> bool) (m : module) {struct m} : nat :=
  match m with
  | Mod _ _ _ children =>
      ((if P m then 1 else 0) + sum_list (map (count_modules P) children))%nat
  end.

Definition is_linear (m : module) : bool :=
  match mod_kind m with Linear _ => true | _ => false end.

(** The three ways [_init_weights] fills a tensor. *)
Definition init_form (config : GPTConfig) (d : init_dist) : Prop :=
  d = Zeros \/ d = Normal 0.0 0.02 \/
  d = Normal 0.0 (0.02 * Rpower (2 * INR (n_layer config)) (-0.5)).

(** The fills inside block [i], in the order [apply] reaches them: the
    two linear layers of the attention, then the two of the MLP, each
    with its weight and its bias; nothing on [ln_1], [ln_2] or [gelu]. *)
Definition block_fills (config : GPTConfig) (i : nat) : list (string * init_dist) :=
  let p := "transformer.h." +:+ pretty i in
  [ (p +:+ ".attn.c_attn.weight", Normal 0.0 0.02);
    (p +:+ ".attn.c_attn.bias", Zeros);
    (p +:+ ".attn.c_proj.weight",
       Normal 0.0 (0.02 * Rpower (2 * INR (n_layer config)) (-0.5)));
    (p +:+ ".attn.c_proj.bias", Zeros);
    (p +:+ ".mlp.c_fc.weight", Normal 0.0 0.02);
    (p +:+ ".mlp.c_fc.bias", Zeros);
    (p +:+ ".mlp.c_proj.weight", Normal 0.0 0.02);
    (p +:+ ".mlp.c_proj.bias", Zeros) ].

Lemma string_app_assoc (a b c : string) : (a +:+ b) +:+ c = a +:+ (b +:+ c).
Proof.
  induction a as [|x a IH]; [done|].
  change (String x ((a +:+ b) +:+ c) = String x (a +:+ (b +:+ c))).
  by rewrite IH.
Qed.

Lemma join_app (c : Ascii.ascii) (s t name : string) :
  join (String c s +:+ t) name = (String c s +:+ t) +:+ "." +:+ name.
Proof. reflexivity. Qed.

Lemma apply_block_fills (config : GPTConfig) (i : nat) :
  apply (_init_weights config) "transformer.h" (Block (pretty i))
  = block_fills config i.
Proof.
  unfold block_fills. cbn -[pretty Rpower INR join].
  change (join "transformer.h" (pretty i))
    with ("transformer.h" +:+ "." +:+ pretty i).
  repeat (rewrite ?string_app_assoc; rewrite join_app).
  rewrite !string_app_assoc. reflexivity.
Qed.

Lemma apply_blocks_fills (config : GPTConfig) : forall n k,
  concat (map (apply (_init_weights config) "transformer.h")
            (map (fun i : nat => Block (pretty i)) (seq k n)))
  = concat (map (block_fills config) (seq k n)).
Proof.
  induction n as [|n IH]; intros k; [done|].
  cbn [seq map concat]. by rewrite IH, apply_block_fills.
Qed.

Lemma count_blocks (P : module -> bool) (c : nat) :
  (forall name, count_modules P (Block name) = c) ->
  forall n k,
    sum_list (map (count_modules P) (map (fun i : nat => Block (pretty i)) (seq k n)))
    = (n * c)%nat.
Proof.
  intros Hc. induction n as [|n IH]; intros k; [done|].
  cbn -[count_modules Block pretty]. rewrite Hc, IH. lia.
Qed.

Lemma apply_block_log (config : GPTConfig) (path name : string) :
  length (apply (_init_weights config) path (Block name)) = 8%nat /\
  Forall (fun e => init_form config e.2)
    (apply (_init_weights config) path (Block name)).
Proof.
  split; [reflexivity|]. unfold init_form.
  cbn -[join Rpower INR].
  repeat (apply Forall_cons; split; [simpl; auto|]). apply Forall_nil_2.
Qed.

Lemma apply_blocks_log (config : GPTConfig) (path : string) : forall n k,
  length (concat (map (apply (_init_weights config) path)
                    (map (fun i : nat => Block (pretty i)) (seq k n))))
  = (8 * n)%nat /\
  Forall (fun e => init_form config e.2)
    (concat (map (apply (_init_weights config) path)
               (map (fun i : nat => Block (pretty i)) (seq k n)))).
Proof.
  induction n as [|n IH]; intros k; [done|].
  cbn [seq map concat]. destruct (IH (S k)) as [H1 H2].
  destruct (apply_block_log config path (pretty k)) as [H3 H4].
  rewrite length_app, H1, H3, Forall_app. split; [lia | done].
Qed.

(** X9: for every configuration, exactly [n_layer] of the
    [4 * n_layer + 1] linear layers carry [NANOGPT_SCALE_INIT] (one per
    block, the attention projection), and
    [self.apply(self._init_weights)] performs exactly these fills, in this
    order: the two embedding weights with deviation 0.02; in every block
    the weight and then the zeroed bias of [attn.c_attn], [attn.c_proj]
    (the only weights with the scaled deviation), [mlp.c_fc] and
    [mlp.c_proj]; last the head's weight.  That is [8 * n_layer + 3]
    fills, each of one of three forms, and none on any of the
    [2 * n_layer + 1] LayerNorm modules. *)
Theorem init_weights_census (config : GPTConfig) :
  count_modules has_scale_init (GPT_modules config) = n_layer config /\
  count_modules is_linear (GPT_modules config) = (4 * n_layer config + 1)%nat /\
  count_modules (fun m => match mod_kind m with LayerNorm => true | _ => false end)
    (GPT_modules config) = (2 * n_layer config + 1)%nat /\
  init_log config
  = [ ("transformer.wte.weight", Normal 0.0 0.02);
      ("transformer.wpe.weight", Normal 0.0 0.02) ]
      ++ concat (map (block_fills config) (seq 0 (n_layer config)))
      ++ [ ("lm_head.weight", Normal 0.0 0.02) ] /\
  length (init_log config) = (8 * n_layer config + 3)%nat /\
  Forall (fun e => init_form config e.2) (init_log config).
Proof.
  split; [|split; [|split; [|split]]].
  - unfold GPT_modules. cbn -[Block pretty seq].
    rewrite (count_blocks _ 1) by reflexivity. lia.
  - unfold GPT_modules. cbn -[Block pretty seq].
    rewrite (count_blocks _ 4) by reflexivity. lia.
  - unfold GPT_modules. cbn -[Block pretty seq].
    rewrite (count_blocks _ 2) by reflexivity. lia.
  - unfold init_log, GPT_modules. cbn -[Block pretty seq Rpower INR].
    change ("transformer" +:+ "." +:+ "h") with "transformer.h".
    rewrite apply_blocks_fills, !app_nil_r. reflexivity.
  - unfold init_log, GPT_modules. cbn -[Block pretty seq join Rpower INR apply].
    destruct (apply_blocks_log config (join (join (join "" "") "transformer") "h")
                (n_layer config) 0) as [H1 H2].
    cbn -[Block pretty seq join Rpower INR] in H1, H2 |- *.
    rewrite ?app_nil_r in *.
    split.
    + rewrite !length_app, H1. simpl. lia.
    + repeat (apply Forall_cons; split; [unfold init_form; simpl; auto|]).
      apply Forall_app. split; [done|].
      repeat (apply Forall_cons; split; [unfold init_form; simpl; auto|]).
      apply Forall_nil_2.
Qed.

End InitFacts.

(** ** More on the forward pass: attention weights, the loss, shapes *)

Module ModelFacts.

Import Model.

Local Open Scope R_scope.

(** [nn.Linear(in_features, out_features)] as constructed. *)
Definition linear_shape (in_features out_features : nat) (l : Linear) : Prop :=
  length (weight l) = out_features /\
  Forall (fun r => length r = in_features) (weight l) /\
  match bias l with Some b => length b = out_features | None => True end.

(** A [Block] as [Block(config)] builds it for [n_embd = C], with the
    assertion of line 24. *)
Definition block_shape (C : nat) (b : Block) : Prop :=
  n_embd (attn b) = C /\
  (0 < n_head (attn b))%nat /\ (C `mod` n_head (attn b) = 0)%nat /\
  linear_shape C (3 * C) (c_attn (attn b)) /\
  linear_shape C C (c_proj (attn b)) /\
  linear_shape C (4 * C) (c_fc (mlp b)) /\
  linear_shape (4 * C) C (mlp_c_proj (mlp b)) /\
  length (ln_weight (ln_1 b)) = C /\ length (ln_bias (ln_1 b)) = C /\
  length (ln_weight (ln_2 b)) = C /\ length (ln_bias (ln_2 b)) = C.

Definition width (C : nat) (xs : list vec) : Prop :=
  Forall (fun x => length x = C) xs.

(** A block of embedding width 1 with one head, shaped as the
    constructors shape it. *)
Definition unit_block : Block :=
  mkBlock (mkLayerNorm [1] [0])
    (mkAttn (mkLinear [[1]; [1]; [1]] (Some [0; 0; 0]))
            (mkLinear [[1]] (Some [0])) 1 1)
    (mkLayerNorm [1] [0])
    (mkMLP (mkLinear [[1]; [1]; [1]; [1]] (Some [0; 0; 0; 0]))
           (mkLinear [[1; 1; 1; 1]] (Some [0]))).

Lemma vsum_cons (x : R) (v : vec) : vsum (x :: v) = x + vsum v.
Proof. reflexivity. Qed.

Lemma vsum_nonneg (v : vec) : Forall (fun x => 0 <= x) v -> 0 <= vsum v.
Proof. induction 1 as [|x v Hx _ IH]; simpl; lra. Qed.

Lemma elem_le_vsum (v : vec) : forall j x,
  Forall (fun x => 0 <= x) v -> v !! j = Some x -> x <= vsum v.
Proof.
  induction v as [|y v IH]; intros j x Hall Hj; [done|].
  apply Forall_cons in Hall as [Hy Hv]. pose proof (vsum_nonneg v Hv).
  destruct j as [|j]; simpl in *.
  - injection Hj as ->. lra.
  - pose proof (IH j x Hv Hj). lra.
Qed.

Lemma vsum_scale (c : R) (v : vec) :
  vsum (map (fun x => x / c) v) = vsum v / c.
Proof. induction v as [|x v IH]; simpl; [lra|]. rewrite IH. lra. Qed.

Lemma masked_exp_nonneg (i : nat) (scores : list R) :
  Forall (fun x => 0 <= x) (masked_exp i scores).
Proof.
  apply Forall_lookup. intros j x Hx. unfold masked_exp in Hx.
  rewrite list_lookup_imap in Hx.
  destruct (scores !! j) as [s|]; simpl in Hx; [|done]. injection Hx as <-.
  destruct (decide _); [apply Rlt_le, exp_pos | lra].
Qed.

Lemma masked_exp_sum_pos (i : nat) (scores : list R) :
  scores <> [] -> 0 < vsum (masked_exp i scores).
Proof.
  destruct scores as [|s scores]; [done|]. intros _.
  unfold masked_exp. rewrite imap_cons, vsum_cons.
  rewrite decide_True by lia.
  pose proof (exp_pos s).
  pose proof (vsum_nonneg _ (masked_exp_nonneg i (s :: scores))) as H1.
  assert (H2 : Forall (fun x => 0 <= x)
                 (imap ((fun j s0 => if decide (j <= i)%nat then exp s0 else 0) ∘ S)
                    scores)).
  { pose proof (masked_exp_nonneg i (s :: scores)) as H3.
    unfold masked_exp in H3. rewrite imap_cons in H3.
    by apply Forall_cons in H3 as [_ H3]. }
  pose proof (vsum_nonneg _ H2). lra.
Qed.

(** X10: for a query position [i] and a non-empty sequence, the masked
    softmax of line 43 yields a probability distribution: weights between
    0 and 1 that sum to 1, one per key, and exactly 0 on every key after
    position [i]. *)
Theorem attention_weights_distribution (i : nat) (scores : list R) :
  scores <> [] ->
  length (softmax_masked i scores) = length scores /\
  Forall (fun p => 0 <= p <= 1) (softmax_masked i scores) /\
  vsum (softmax_masked i scores) = 1 /\
  (forall j p, (i < j)%nat -> softmax_masked i scores !! j = Some p -> p = 0).
Proof.
  intros Hne. pose proof (masked_exp_sum_pos i scores Hne) as Hpos.
  pose proof (masked_exp_nonneg i scores) as Hnn.
  split; [|split; [|split]].
  - unfold softmax_masked, masked_exp. by rewrite length_map, length_imap.
  - unfold softmax_masked. apply Forall_lookup. intros j p Hp.
    rewrite list_lookup_fmap in Hp.
    destruct (masked_exp i scores !! j) as [w|] eqn:Hw; simpl in Hp; [|done].
    injection Hp as <-.
    pose proof (elem_le_vsum _ j w Hnn Hw) as Hle.
    pose proof (proj1 (Forall_lookup _ _) Hnn j w Hw) as Hw0. simpl in Hw0.
    split.
    + apply Rmult_le_pos; [done|]. by apply Rlt_le, Rinv_0_lt_compat.
    + apply (Rmult_le_reg_r (vsum (masked_exp i scores))); [done|].
      unfold Rdiv. rewrite Rmult_assoc, Rinv_l by lra. lra.
  - unfold softmax_masked. rewrite vsum_scale. field. lra.
  - intros j p. apply softmax_masked_zero.
Qed.

Lemma attention_weights_distribution_witness :
  vsum (softmax_masked 1 [0; 1; 2]) = 1.
Proof.
  apply (attention_weights_distribution 1 [0; 1; 2]). discriminate.
Defined.

Lemma nth_seq_self (v : vec) : map (fun c => nth c v 0) (seq 0 (length v)) = v.
Proof.
  induction v as [|x v IH]; [done|]. simpl. f_equal.
  rewrite <- seq_shift, map_map. exact IH.
Qed.

(** X11: the first position attends to itself only: whatever the query
    and the keys are, its attention output is its own value vector. *)
Theorem first_position_attends_to_itself (hs : nat) (q k v : vec)
    (ks vs : list vec) :
  attend hs 0 q (k :: ks) (v :: vs) = map (fun c => nth c v 0) (seq 0 hs) /\
  (length v = hs -> attend hs 0 q (k :: ks) (v :: vs) = v).
Proof.
  assert (H : attend hs 0 q (k :: ks) (v :: vs)
              = map (fun c => nth c v 0) (seq 0 hs)).
  { rewrite <- (attend_prefix hs 0 1) by lia. simpl take. rewrite !take_0.
    unfold attend, softmax_masked, masked_exp. simpl.
    apply map_ext. intros c. pose proof (exp_pos (dot q k / sqrt (INR hs))).
    field. lra. }
  split; [exact H|]. intros <-. rewrite H. apply nth_seq_self.
Qed.

Lemma nll_nonneg (z : vec) (y : nat) : (y < length z)%nat -> 0 <= nll z y.
Proof.
  intros Hy. unfold nll.
  destruct (lookup_lt_is_Some_2 z y Hy) as [zy Hzy].
  rewrite (nth_lookup_Some z y 0 zy Hzy).
  assert (Hnn : Forall (fun x => 0 <= x) (map exp z)).
  { apply Forall_forall. intros x Hx.
    apply list_elem_of_In, in_map_iff in Hx as (s & <- & _).
    apply Rlt_le, exp_pos. }
  assert (Hle : exp zy <= vsum (map exp z)).
  { apply (elem_le_vsum _ y); [done|].
    pose proof (list_lookup_fmap exp z y) as Hl. rewrite Hzy in Hl. exact Hl. }
  pose proof (exp_pos zy) as Hpos.
  destruct (Rle_or_lt zy (ln (vsum (map exp z)))) as [?|Hlt]; [lra|].
  apply exp_increasing in Hlt. rewrite exp_ln in Hlt by lra. lra.
Qed.

Lemma zip_with_nll_nonneg (V : nat) (zs : list vec) : forall ys,
  Forall (fun z => length z = V) zs -> Forall (fun y => (y < V)%nat) ys ->
  Forall (fun x => 0 <= x) (zip_with nll zs ys).
Proof.
  induction zs as [|z zs IH]; intros [|y ys] Hz Hy; simpl; try constructor.
  - apply Forall_cons in Hz as [Hz _]. apply Forall_cons in Hy as [Hy _].
    apply nll_nonneg. lia.
  - apply Forall_cons in Hz as [_ Hz]. apply Forall_cons in Hy as [_ Hy].
    by apply IH.
Qed.

(** X12: on a non-empty batch (shape [[B, T]] with [B*T > 0]), whenever
    [forward] returns a loss, the loss is non-negative.  (On an empty
    batch the mean of line 110 is over no position at all.) *)
Theorem forward_loss_nonneg (m : GPT) (B T : nat) (idx tg : list (list nat))
    (logits : list (list vec)) (loss : R) :
  has_shape B T idx -> (0 < B * T)%nat ->
  forward m T idx (Some tg) = inr (logits, Some loss) -> 0 <= loss.
Proof.
  unfold forward. intros Hshape Hpos H.
  destruct (decide (T <= Init.block_size _)%nat); [|done].
  destruct (decide (T <= length _)%nat); [|done].
  destruct (decide (tokens_in_range _ idx)); [|done].
  destruct (decide _) as [[_ Htg]|]; [|done].
  injection H as _ <-. unfold cross_entropy.
  assert (Hsum : 0 <= vsum (zip_with nll (concat (map (logits_row m) idx)) (concat tg))).
  { apply vsum_nonneg, (zip_with_nll_nonneg (length (wte m))).
    - apply Forall_concat, Forall_fmap, Forall_true. intros r.
      apply logits_row_width.
    - by apply Forall_concat. }
  pose proof (Accumulation.length_flat_logits m B T idx Hshape) as Hlen.
  unfold Accumulation.flat_logits in Hlen. rewrite Hlen.
  apply Rmult_le_pos; [done|].
  apply Rlt_le, Rinv_0_lt_compat, lt_0_INR. exact Hpos.
Qed.

Lemma forward_loss_nonneg_witness :
  0 <= loss_value tiny_gpt [[0; 1]]%nat [[1; 0]]%nat.
Proof.
  apply (forward_loss_nonneg tiny_gpt 1 2 [[0; 1]]%nat [[1; 0]]%nat
           (map (logits_row tiny_gpt) [[0; 1]]%nat)).
  - split; [reflexivity | repeat constructor].
  - lia.
  - unfold forward. rewrite decide_True by (simpl; lia).
    rewrite decide_True by (simpl; lia).
    rewrite decide_True by (apply tiny_tokens_in_range; repeat constructor).
    rewrite decide_True; [reflexivity|].
    split; [split; [reflexivity | repeat constructor]|].
    apply tiny_tokens_in_range. repeat constructor.
Defined.

Lemma length_linear (in_f out_f : nat) (l : Linear) (x : vec) :
  linear_shape in_f out_f l -> length (linear l x) = out_f.
Proof.
  intros (Hw & _ & Hb). unfold linear, vadd.
  destruct (bias l) as [b|]; rewrite ?length_zip_with, length_map; lia.
Qed.

Lemma length_layer_norm (p : LayerNorm) (x : vec) (C : nat) :
  length (ln_weight p) = C -> length (ln_bias p) = C -> length x = C ->
  length (layer_norm p x) = C.
Proof.
  intros Hw Hb Hx. unfold layer_norm, vadd.
  rewrite !length_zip_with, length_map. lia.
Qed.

Lemma length_attend (hs i : nat) (q : vec) (ks vs : list vec) :
  length (attend hs i q ks vs) = hs.
Proof. unfold attend. by rewrite length_map, length_seq. Qed.

Lemma length_merged_heads (hs nh i : nat) (q : vec) (ks vs : list vec) :
  length (concat (map (fun h => attend hs i (head_slice hs h q)
                                  (map (head_slice hs h) ks)
                                  (map (head_slice hs h) vs))
                      (seq 0 nh)))
  = (nh * hs)%nat.
Proof.
  generalize 0%nat. induction nh as [|nh IH]; intros k; simpl; [done|].
  by rewrite length_app, length_attend, IH.
Qed.

Lemma width_zip_vadd (C : nat) (xs ys : list vec) :
  width C xs -> width C ys -> width C (zip_with vadd xs ys).
Proof.
  unfold width. intros Hx. revert ys.
  induction Hx as [|x xs Hx _ IH]; intros [|y ys] Hy; simpl; try constructor.
  - apply Forall_cons in Hy as [Hy _]. unfold vadd.
    rewrite length_zip_with. lia.
  - apply Forall_cons in Hy as [_ Hy]. by apply IH.
Qed.

Lemma width_map_linear (in_f out_f : nat) (l : Linear) (xs : list vec) :
  linear_shape in_f out_f l -> width out_f (map (linear l) xs).
Proof.
  intros Hl. apply Forall_forall. intros y Hy.
  apply list_elem_of_In, in_map_iff in Hy as (x & <- & _).
  by apply (length_linear in_f).
Qed.

(** X13: in a block built for [n_embd = C] whose head count divides [C]
    (the assertion of line 24), every tensor of the forward pass has the
    width the next operation expects: the combined projection is [3*C]
    wide and splits into three [C]-wide parts, each head sees
    [C / n_head] of them, the merged heads are [C] wide again (so the
    [view(B,T,C)] of line 44 is valid), the MLP expands to [4*C] and
    contracts to [C], and the block returns a sequence of the same length
    and width as its input. *)
Theorem block_shapes_line_up (C : nat) (b : Block) (xs : list vec) :
  block_shape C b -> width C xs ->
  let hs := (C / n_head (attn b))%nat in
  (forall x, length x = C ->
     let qkv := linear (c_attn (attn b)) (layer_norm (ln_1 b) x) in
     length (layer_norm (ln_1 b) x) = C /\ length qkv = (3 * C)%nat /\
     length (take C qkv) = C /\ length (take C (drop C qkv)) = C /\
     length (take C (drop (2 * C) qkv)) = C /\
     drop (3 * C) qkv = []) /\
  (forall hd v, (hd < n_head (attn b))%nat -> length v = C ->
     length (head_slice hs hd v) = hs) /\
  (forall i q ks vs,
     length (concat (map (fun hd => attend hs i (head_slice hs hd q)
                                      (map (head_slice hs hd) ks)
                                      (map (head_slice hs hd) vs))
                         (seq 0 (n_head (attn b)))))
     = C) /\
  (forall x, length (linear (c_fc (mlp b)) x) = (4 * C)%nat /\
             length (MLP_forward (mlp b) x) = C) /\
  length (Block_forward b xs) = length xs /\
  width C (Block_forward b xs).
Proof.
  intros (HC & Hnh & Hmod & Hattn & Hproj & Hfc & Hmp & Hw1 & Hb1 & Hw2 & Hb2) Hxs hs.
  assert (Hhs : (n_head (attn b) * hs = C)%nat).
  { subst hs. pose proof (Nat.div_mod C (n_head (attn b)) ltac:(lia)). lia. }
  split; [|split; [|split; [|split; [|split]]]].
  - intros x Hx qkv.
    assert (Hq : length qkv = (3 * C)%nat) by (by apply (length_linear C)).
    split; [by apply length_layer_norm|]. split; [done|].
    rewrite !length_take, !length_drop, Hq.
    repeat split; try lia. apply drop_ge. lia.
  - intros hd v Hhd Hv. unfold head_slice. rewrite length_take, length_drop. nia.
  - intros i q ks vs. by rewrite length_merged_heads.
  - intros x. split; [by apply (length_linear C)|].
    unfold MLP_forward. by apply (length_linear (4 * C)).
  - apply length_Block_forward.
  - unfold Block_forward.
    assert (H1 : width C (zip_with vadd xs
                            (attn_forward (attn b) (map (layer_norm (ln_1 b)) xs)))).
    { apply width_zip_vadd; [done|]. unfold attn_forward.
      by apply (width_map_linear C). }
    apply width_zip_vadd; [done|].
    apply Forall_forall. intros y Hy.
    apply list_elem_of_In, in_map_iff in Hy as (x & <- & _).
    unfold MLP_forward. by apply (length_linear (4 * C)).
Qed.

Lemma block_shapes_line_up_witness :
  length (Block_forward unit_block [[1]; [2]; [3]]) = 3%nat /\
  width 1 (Block_forward unit_block [[1]; [2]; [3]]).
Proof.
  assert (Hs : block_shape 1 unit_block).
  { unfold block_shape, linear_shape, unit_block; simpl.
    repeat split; try lia; repeat constructor. }
  assert (Hx : width 1 [[1]; [2]; [3]]) by repeat constructor.
  destruct (block_shapes_line_up 1 unit_block [[1]; [2]; [3]] Hs Hx)
    as (_ & _ & _ & _ & H1 & H2).
  split; [exact H1 | exact H2].
Defined.

End ModelFacts.

(** ** More on the optimizer step: clipping and the logged loss *)

Module AccumulationFacts.

Import Model Accumulation.

Local Open Scope R_scope.


(** [loss_accum] of lines 339-347 (and [val_loss_accum] of lines 298-306,
    with [val_loss_steps] for the count): each micro-batch loss divided by
    the number of steps, summed from 0. *)
Definition loss_accum (m : GPT) (steps : nat) (batches : list batch) : R :=
  foldl (fun acc b => acc + loss_value m b.1 b.2 / INR steps) 0.0 batches.






(** X15: the loss the loop logs is the mean cross-entropy over all the
    tokens of the step: for [k >= 1] micro-batches of one shape,
    [loss_accum] equals the loss of the concatenated batch. *)
Theorem logged_loss_is_batch_mean (m : GPT) (B T : nat) (batches : list batch) :
  (1 <= length batches)%nat ->
  Forall (shapes_ok B T) batches ->
  loss_accum m (length batches) batches
  = loss_value m (concat_batches batches).1 (concat_batches batches).2.
Proof.
  intros Hk Hall. unfold loss_accum.
  rewrite foldl_Rplus_foldr, (scaled_losses_sum m B T) by done.
  simpl INR. unfold Rdiv. rewrite Rinv_1. lra.
Qed.

Lemma logged_loss_is_batch_mean_witness :
  loss_accum tiny_gpt 2 [([[0; 1]], [[1; 0]]); ([[1; 1]], [[0; 1]])]%nat
  = loss_value tiny_gpt [[0; 1]; [1; 1]]%nat [[1; 0]; [0; 1]]%nat.
Proof.
  apply (logged_loss_is_batch_mean tiny_gpt 1 2
           [([[0; 1]], [[1; 0]]); ([[1; 1]], [[0; 1]])]%nat).
  - simpl. lia.
  - repeat constructor.
Defined.

End AccumulationFacts.

(** ** The optimizer's parameter groups: [GPT.configure_optimizers] *)

Module Optim.

Import Init.

(** The tensors a block owns, and the parameter objects of the model.
    After line 82 the attributes [transformer.wte.weight] and
    [lm_head.weight] hold one object, [LmHeadWeight]. *)
Inductive block_tensor :=
  | Ln1Weight | Ln1Bias | CAttnWeight | CAttnBias | AttnProjWeight | AttnProjBias
  | Ln2Weight | Ln2Bias | CFcWeight | CFcBias | MlpProjWeight | MlpProjBias.

Inductive param_obj :=
  | WpeWeight
  | InBlock (i : nat) (t : block_tensor)
  | LnFWeight
  | LnFBias
  | LmHeadWeight.

#[local] Instance block_tensor_eq : EqDecision block_tensor.
Proof. solve_decision. Defined.

#[local] Instance param_obj_eq : EqDecision param_obj.
Proof. solve_decision. Defined.

(** A parameter attribute: its dotted name, the object it holds, and the
    object's shape. *)
Record attribute := mkAttr {
  attr_name : string;
  attr_obj : param_obj;
  attr_shape : list N
}.

Definition dim (a : attribute) : nat := length (attr_shape a).
Definition numel (a : attribute) : N := foldr N.mul 1%N (attr_shape a).

(** The parameter attributes of one [Block], in registration order;
    [nn.Linear(i, o)] has a weight of shape [[o, i]] and a bias of shape
    [[o]], [nn.LayerNorm(n)] a weight and a bias of shape [[n]] (the
    causal mask is a buffer, not a parameter). *)
Definition block_attributes (C : N) (i : nat) : list attribute :=
  let p := "transformer.h." +:+ pretty i in
  [ mkAttr (p +:+ ".ln_1.weight") (InBlock i Ln1Weight) [C];
    mkAttr (p +:+ ".ln_1.bias") (InBlock i Ln1Bias) [C];
    mkAttr (p +:+ ".attn.c_attn.weight") (InBlock i CAttnWeight) [3 * C; C]%N;
    mkAttr (p +:+ ".attn.c_attn.bias") (InBlock i CAttnBias) [3 * C]%N;
    mkAttr (p +:+ ".attn.c_proj.weight") (InBlock i AttnProjWeight) [C; C];
    mkAttr (p +:+ ".attn.c_proj.bias") (InBlock i AttnProjBias) [C];
    mkAttr (p +:+ ".ln_2.weight") (InBlock i Ln2Weight) [C];
    mkAttr (p +:+ ".ln_2.bias") (InBlock i Ln2Bias) [C];
    mkAttr (p +:+ ".mlp.c_fc.weight") (InBlock i CFcWeight) [4 * C; C]%N;
    mkAttr (p +:+ ".mlp.c_fc.bias") (InBlock i CFcBias) [4 * C]%N;
    mkAttr (p +:+ ".mlp.c_proj.weight") (InBlock i MlpProjWeight) [C; 4 * C]%N;
    mkAttr (p +:+ ".mlp.c_proj.bias") (InBlock i MlpProjBias) [C] ].

Definition blocks_attributes (C : N) (k n : nat) : list attribute :=
  concat (map (block_attributes C) (seq k n)).

(** All parameter attributes of [GPT(config)], lines 74-82. *)
Definition attributes (config : GPTConfig) : list attribute :=
  let C := N.of_nat (n_embd config) in
  let V := N.of_nat (vocab_size config) in
  [ mkAttr "transformer.wte.weight" LmHeadWeight [V; C];
    mkAttr "transformer.wpe.weight" WpeWeight [N.of_nat (block_size config); C] ]
  ++ blocks_attributes C 0 (n_layer config)
  ++ [ mkAttr "transformer.ln_f.weight" LnFWeight [C];
       mkAttr "transformer.ln_f.bias" LnFBias [C];
       mkAttr "lm_head.weight" LmHeadWeight [V; C] ].

(** [named_parameters()]: every parameter object once, under the first
    attribute that holds it. *)
Fixpoint first_holders (seen : list param_obj) (l : list attribute)
  : list attribute :=
  match l with
  | [] => []
  | a :: rest =>
      if decide (attr_obj a ∈ seen) then first_holders seen rest
      else a :: first_holders (attr_obj a :: seen) rest
  end.

Definition named_parameters (config : GPTConfig) : list attribute :=
  first_holders [] (attributes config).

(** Lines 151-160: the two groups and their sizes (every parameter
    requires a gradient). *)
Definition decay_params (config : GPTConfig) : list attribute :=
  filter (fun a => 2 <= dim a) (named_parameters config).

Definition nodecay_params (config : GPTConfig) : list attribute :=
  filter (fun a => dim a < 2) (named_parameters config).

Definition total_numel (l : list attribute) : N := foldr N.add 0%N (map numel l).

Definition num_decay_params (config : GPTConfig) : N :=
  total_numel (decay_params config).

Definition num_nodecay_params (config : GPTConfig) : N :=
  total_numel (nodecay_params config).

(** The configuration the script trains, line 267:
    [GPTConfig(vocab_size=50304)]. *)
#[warnings="-abstract-large-number"]
Definition script_config : GPTConfig := mkConfig 1024 50304 12 12 768.

(** Membership in an explicit list of distinct objects. *)
Ltac not_listed :=
  let H := fresh in
  intros H;
  repeat (apply elem_of_cons in H as [H|H]; [discriminate H|]);
  try (by apply elem_of_nil in H).

Lemma total_numel_app (l k : list attribute) :
  total_numel (l ++ k) = (total_numel l + total_numel k)%N.
Proof.
  unfold total_numel. induction l as [|a l IH]; simpl; [done|].
  rewrite IH. lia.
Qed.

(** No attribute of a block is dropped when none of its objects was seen
    before. *)
Lemma first_holders_block (C : N) (i : nat) (seen : list param_obj)
    (rest : list attribute) :
  (forall t, InBlock i t ∉ seen) ->
  exists seen',
    first_holders seen (block_attributes C i ++ rest)
      = block_attributes C i ++ first_holders seen' rest /\
    (forall o, o ∈ seen' <-> (exists t, o = InBlock i t) \/ o ∈ seen).
Proof.
  intros Hfresh. unfold block_attributes. cbn -[pretty N.mul].
  repeat (rewrite decide_False;
          [| let H := fresh in
             intros H;
             repeat (apply elem_of_cons in H as [H|H]; [discriminate H|]);
             exact (Hfresh _ H)]).
  eexists. split; [reflexivity|].
  intros o. rewrite !elem_of_cons. split.
  - intros H. repeat (destruct H as [->|H]; [left; eauto|]). by right.
  - intros [[[] ->]|H]; tauto.
Qed.

Lemma first_holders_blocks (C : N) (n : nat) : forall k seen rest,
  (forall j t, (k <= j)%nat -> InBlock j t ∉ seen) ->
  exists seen',
    first_holders seen (blocks_attributes C k n ++ rest)
      = blocks_attributes C k n ++ first_holders seen' rest /\
    (forall o, (forall j t, o <> InBlock j t) -> (o ∈ seen' <-> o ∈ seen)).
Proof.
  unfold blocks_attributes.
  induction n as [|n IH]; intros k seen rest Hfresh.
  - exists seen. done.
  - cbn [seq map concat]. rewrite <- app_assoc.
    destruct (first_holders_block C k seen
                (concat (map (block_attributes C) (seq (S k) n)) ++ rest))
      as (seen1 & -> & Hseen1).
    { intros t. apply Hfresh. lia. }
    destruct (IH (S k) seen1 rest) as (seen2 & -> & Hseen2).
    { intros j t Hj Hin. apply Hseen1 in Hin as [[t' Heq]|Hin].
      - injection Heq as -> _. lia.
      - apply (Hfresh j t); [lia | done]. }
    exists seen2. split; [by rewrite <- app_assoc|].
    intros o Ho. rewrite (Hseen2 o Ho), Hseen1. split; [|auto].
    intros [[t ->]|H]; [by destruct (Ho k t) | done].
Qed.

(** [named_parameters()] drops [lm_head.weight] and nothing else. *)
Lemma named_parameters_eq (config : GPTConfig) :
  named_parameters config
  = [ mkAttr "transformer.wte.weight" LmHeadWeight
        [N.of_nat (vocab_size config); N.of_nat (n_embd config)];
      mkAttr "transformer.wpe.weight" WpeWeight
        [N.of_nat (block_size config); N.of_nat (n_embd config)] ]
    ++ blocks_attributes (N.of_nat (n_embd config)) 0 (n_layer config)
    ++ [ mkAttr "transformer.ln_f.weight" LnFWeight [N.of_nat (n_embd config)];
         mkAttr "transformer.ln_f.bias" LnFBias [N.of_nat (n_embd config)] ].
Proof.
  unfold named_parameters, attributes. cbn [app first_holders attr_obj].
  rewrite decide_False by not_listed.
  rewrite decide_False by not_listed.
  destruct (first_holders_blocks (N.of_nat (n_embd config)) (n_layer config) 0
              [WpeWeight; LmHeadWeight]
              [ mkAttr "transformer.ln_f.weight" LnFWeight [N.of_nat (n_embd config)];
                mkAttr "transformer.ln_f.bias" LnFBias [N.of_nat (n_embd config)];
                mkAttr "lm_head.weight" LmHeadWeight
                  [N.of_nat (vocab_size config); N.of_nat (n_embd config)] ])
    as (seen' & -> & Hseen).
  { intros j t _. not_listed. }
  do 3 f_equal. cbn [first_holders attr_obj].
  assert (H1 : LnFWeight ∉ seen').
  { intros Hin. apply Hseen in Hin; [|done]. revert Hin. not_listed. }
  assert (H2 : LnFBias ∉ LnFWeight :: seen').
  { intros Hin. apply elem_of_cons in Hin as [Hin|Hin]; [discriminate Hin|].
    apply Hseen in Hin; [|done]. revert Hin. not_listed. }
  assert (H3 : LmHeadWeight ∈ LnFBias :: LnFWeight :: seen').
  { apply elem_of_cons; right. apply elem_of_cons; right.
    apply Hseen; [done|]. apply elem_of_cons; right.
    apply elem_of_cons; by left. }
  by rewrite (decide_False _ _ H1), (decide_False _ _ H2), (decide_True _ _ H3).
Qed.

Lemma block_groups (C : N) (i : nat) :
  length (filter (fun a => 2 <= dim a) (block_attributes C i)) = 4 /\
  length (filter (fun a => dim a < 2) (block_attributes C i)) = 8 /\
  total_numel (filter (fun a => 2 <= dim a) (block_attributes C i))
    = (12 * C * C)%N /\
  total_numel (filter (fun a => dim a < 2) (block_attributes C i))
    = (13 * C)%N.
Proof.
  unfold block_attributes.
  repeat (first [ rewrite filter_cons_True by (cbn; lia)
                | rewrite filter_cons_False by (cbn; lia) ]).
  rewrite !filter_nil. unfold total_numel, numel.
  cbn [length map foldr attr_shape]. repeat split; lia.
Qed.

Lemma blocks_groups (C : N) (n : nat) : forall k,
  length (filter (fun a => 2 <= dim a) (blocks_attributes C k n)) = 4 * n /\
  length (filter (fun a => dim a < 2) (blocks_attributes C k n)) = 8 * n /\
  total_numel (filter (fun a => 2 <= dim a) (blocks_attributes C k n))
    = (N.of_nat n * (12 * C * C))%N /\
  total_numel (filter (fun a => dim a < 2) (blocks_attributes C k n))
    = (N.of_nat n * (13 * C))%N.
Proof.
  unfold blocks_attributes.
  induction n as [|n IH]; intros k; [done|].
  cbn [seq map concat]. destruct (IH (S k)) as (H1 & H2 & H3 & H4).
  destruct (block_groups C k) as (G1 & G2 & G3 & G4).
  rewrite !filter_app, !length_app, !total_numel_app,
    H1, H2, H3, H4, G1, G2, G3, G4.
  repeat split; lia.
Qed.

(** X16: [configure_optimizers] for any configuration with [L] layers,
    width [C], vocabulary [V] and block size [S]: the decay group holds
    [4*L + 2] tensors with [(V + S)*C + 12*L*C^2] elements, the no-decay
    group [8*L + 2] tensors with [13*L*C + 2*C] elements, and together
    they are all the named parameters; the tied weight is counted once, in
    the decay group, under the embedding's name.  For the configuration the
    script trains these are 50 tensors with 124,354,560 elements and 98
    tensors with 121,344. *)
Theorem optimizer_groups_census (config : GPTConfig) :
  let L := n_layer config in
  let C := N.of_nat (n_embd config) in
  let V := N.of_nat (vocab_size config) in
  let S := N.of_nat (block_size config) in
  length (decay_params config) = 4 * L + 2 /\
  length (nodecay_params config) = 8 * L + 2 /\
  length (named_parameters config) = 12 * L + 4 /\
  num_decay_params config = ((V + S) * C + N.of_nat L * (12 * C * C))%N /\
  num_nodecay_params config = (N.of_nat L * (13 * C) + 2 * C)%N /\
  head (decay_params config)
    = Some (mkAttr "transformer.wte.weight" LmHeadWeight [V; C]) /\
  Forall (fun a => attr_name a <> "lm_head.weight") (named_parameters config) /\
  length (filter (fun a => attr_obj a = LmHeadWeight) (named_parameters config)) = 1 /\
  num_decay_params script_config = 124354560%N /\
  num_nodecay_params script_config = 121344%N /\
  length (decay_params script_config) = 50 /\
  length (nodecay_params script_config) = 98.
Proof.
  intros L C V S.
  destruct (blocks_groups C L 0) as (H1 & H2 & H3 & H4).
  assert (Hgen : forall cfg,
    length (decay_params cfg) = 4 * n_layer cfg + 2 /\
    length (nodecay_params cfg) = 8 * n_layer cfg + 2 /\
    num_decay_params cfg
      = ((N.of_nat (vocab_size cfg) + N.of_nat (block_size cfg)) * N.of_nat (n_embd cfg)
         + N.of_nat (n_layer cfg) * (12 * N.of_nat (n_embd cfg) * N.of_nat (n_embd cfg)))%N /\
    num_nodecay_params cfg
      = (N.of_nat (n_layer cfg) * (13 * N.of_nat (n_embd cfg))
         + 2 * N.of_nat (n_embd cfg))%N).
  { intros cfg.
    destruct (blocks_groups (N.of_nat (n_embd cfg)) (n_layer cfg) 0)
      as (G1 & G2 & G3 & G4).
    unfold num_decay_params, num_nodecay_params, decay_params, nodecay_params.
    rewrite named_parameters_eq, !filter_app.
    repeat (first [ rewrite filter_cons_True by (cbn; lia)
                  | rewrite filter_cons_False by (cbn; lia) ]).
    rewrite !filter_nil, !length_app, !total_numel_app, G1, G2, G3, G4.
    unfold total_numel, numel. cbn [length map foldr attr_shape app].
    repeat split; lia. }
  destruct (Hgen config) as (D1 & D2 & D3 & D4).
  destruct (Hgen script_config) as (E1 & E2 & E3 & E4).
  split; [exact D1|]. split; [exact D2|].
  split.
  { rewrite named_parameters_eq, !length_app. unfold blocks_attributes.
    assert (Hlen : forall n k,
              length (concat (map (block_attributes C) (seq k n))) = 12 * n).
    { induction n as [|n IH]; intros k; [done|].
      cbn [seq map concat]. rewrite length_app, IH. simpl. lia. }
    rewrite Hlen. simpl. lia. }
  split; [exact D3|]. split; [exact D4|].
  split.
  { unfold decay_params. rewrite named_parameters_eq. cbn [app].
    by rewrite filter_cons_True by (cbn; lia). }
  split.
  { rewrite named_parameters_eq. rewrite !Forall_app. repeat split.
    - by repeat constructor.
    - unfold blocks_attributes. apply Forall_concat, Forall_fmap, Forall_true.
      intros i. unfold block_attributes. by repeat constructor.
    - by repeat constructor. }
  split.
  { rewrite named_parameters_eq. rewrite !filter_app, !length_app.
    assert (Hnone : forall n k,
              filter (fun a => attr_obj a = LmHeadWeight)
                (blocks_attributes C k n) = []).
    { unfold blocks_attributes. induction n as [|n IH]; intros k; [done|].
      cbn [seq map concat]. rewrite filter_app, IH. unfold block_attributes.
      by repeat (rewrite filter_cons_False by done). }
    rewrite Hnone.
    rewrite filter_cons_True by done.
    by repeat (rewrite filter_cons_False by done). }
  split; [rewrite E3; vm_compute; reflexivity|].
  split; [rewrite E4; vm_compute; reflexivity|].
  split; [by rewrite E1 | by rewrite E2].
Qed.

End Optim.

(** ** The multiple-choice evaluation: [hellaswag.py] *)

Module Hellaswag.

Import Model.

Local Open Scope R_scope.

(** Row [i] of a zero tensor of width [n] after
    [t[i, :len(row)] = torch.tensor(row)]. *)
Definition write_row (n : nat) (row : list nat) : list nat :=
  row ++ replicate (n - length row) 0%nat.

(** A [(4, n)] zero tensor with the given rows written into its first
    rows. *)
Definition write_rows (n : nat) (rows : list (list nat)) : list (list nat) :=
  map (write_row n) rows ++ replicate (4 - length rows) (replicate n 0%nat).

(** [render_example], lines 45-82, on the encoded context and the encoded
    endings: the token tensor and the mask tensor.  [None] stands for the
    two ways it raises: [max()] of no rows, and a write to a row past the
    fourth. *)
Definition render_example (ctx_tokens : list nat) (endings : list (list nat))
  : option (list (list nat) * list (list nat)) :=
  let tok_rows := map (fun e => ctx_tokens ++ e) endings in
  let mask_rows :=
    map (fun e => replicate (length ctx_tokens) 0%nat ++ replicate (length e) 1%nat)
        endings in
  match tok_rows with
  | [] => None
  | _ =>
      let max_len := max_list (map length tok_rows) in
      if decide (length tok_rows <= 4)%nat
      then Some (write_rows max_len tok_rows, write_rows max_len mask_rows)
      else None
  end.

(** Lines 122-136 for one row: the loss of predicting each token from the
    logits of the position before it. *)
Definition shift_losses (logits : list vec) (tokens : list nat) : list R :=
  zip_with nll (take (length logits - 1) logits) (drop 1 tokens).

(** Lines 140-144 for one row. *)
Definition sum_loss (logits : list vec) (tokens mask : list nat) : R :=
  vsum (zip_with (fun l mk => l * INR mk) (shift_losses logits tokens) (drop 1 mask)).

Definition avg_loss (logits : list vec) (tokens mask : list nat) : R :=
  sum_loss logits tokens mask / INR (sum_list (drop 1 mask)).

(** [t.argmin()] of a vector: the index of its least entry, the first one
    among equals; it raises on an empty vector. *)
Fixpoint argmin_from (best_i : nat) (best : R) (i : nat) (l : list R) : nat :=
  match l with
  | [] => best_i
  | x :: rest =>
      if Rlt_dec x best then argmin_from i x (S i) rest
      else argmin_from best_i best (S i) rest
  end.

Definition argmin (l : list R) : option nat :=
  match l with
  | [] => None
  | x :: rest => Some (argmin_from 0 x 1 rest)
  end.

(** Line 144 with the quotient the machine computes: [div] is the
    floating-point division, which rounds ([avg_loss] is the instance with
    the exact quotient). *)
Definition rounded_avg_loss (div : R -> R -> R) (logits : list vec)
    (tokens mask : list nat) : R :=
  div (sum_loss logits tokens mask) (INR (sum_list (drop 1 mask))).

(** The summed losses of the rows of one example, line 143. *)
Definition sum_losses (logits : list (list vec)) (tokens mask : list (list nat))
  : list R :=
  zip_with (fun lg tm => sum_loss lg tm.1 tm.2) logits (zip tokens mask).

(** Lines 147-148: the two predictions for the rows of one example. *)
Definition pred (logits : list (list vec)) (tokens mask : list (list nat))
  : option nat :=
  argmin (sum_losses logits tokens mask).

Definition pred_norm (div : R -> R -> R) (logits : list (list vec))
    (tokens mask : list (list nat)) : option nat :=
  argmin (zip_with (fun lg tm => rounded_avg_loss div lg tm.1 tm.2) logits
            (zip tokens mask)).

(** The tokens of a row at the positions its mask marks. *)
Definition masked_tokens (tokens mask : list nat) : list nat :=
  (filter (fun p => p.2 = 1%nat) (zip tokens mask)).*1.

(** The rows [render_example] writes for a context, an ending and a
    width. *)
Definition token_row (ctx e : list nat) (n : nat) : list nat :=
  ctx ++ e ++ replicate (n - length ctx - length e) 0%nat.

Definition mask_row (ctx e : list nat) (n : nat) : list nat :=
  replicate (length ctx) 0%nat ++ replicate (length e) 1%nat
    ++ replicate (n - length ctx - length e) 0%nat.

Lemma max_list_rows (ctx : list nat) (endings : list (list nat)) :
  endings <> [] ->
  max_list (map length (map (fun e => ctx ++ e) endings))
  = (length ctx + max_list (map length endings))%nat.
Proof.
  induction endings as [|e es IH]; [done|]. intros _.
  destruct es as [|e' es].
  - simpl. rewrite length_app. lia.
  - specialize (IH ltac:(done)). cbn [map max_list] in *.
    unfold Datatypes.id in *. rewrite IH, length_app. lia.
Qed.

Lemma length_write_row (n : nat) (row : list nat) :
  (length row <= n)%nat -> length (write_row n row) = n.
Proof.
  intros H. unfold write_row. rewrite length_app, length_replicate. lia.
Qed.

Lemma masked_zeros (l : list nat) (n : nat) :
  filter (fun p : nat * nat => p.2 = 1%nat) (zip l (replicate n 0%nat)) = [].
Proof.
  revert n. induction l as [|x l IH]; intros [|n]; try done.
  cbn [replicate zip_with]. rewrite filter_cons_False by (simpl; lia). apply IH.
Qed.

Lemma masked_ones (l : list nat) :
  (filter (fun p : nat * nat => p.2 = 1%nat)
     (zip l (replicate (length l) 1%nat))).*1 = l.
Proof.
  induction l as [|x l IH]; [done|].
  cbn [length replicate zip_with]. rewrite filter_cons_True by done.
  rewrite fmap_cons. f_equal. exact IH.
Qed.

Lemma masked_tokens_row (ctx e : list nat) (n : nat) :
  masked_tokens (token_row ctx e n) (mask_row ctx e n) = e.
Proof.
  unfold masked_tokens, token_row, mask_row.
  rewrite zip_with_app by (by rewrite length_replicate).
  rewrite zip_with_app by (by rewrite length_replicate).
  rewrite !filter_app, !fmap_app.
  rewrite !masked_zeros, masked_ones. simpl. by rewrite app_nil_r.
Qed.

(** X17: [render_example] raises exactly when there is no ending or more
    than four.  Otherwise both tensors have 4 rows of
    [len(ctx) + max len(ending)] entries; row [i] of the tokens is the
    context, then ending [i], then zeros, row [i] of the mask has ones
    exactly on ending [i], so the tokens under the mask spell the ending;
    rows without an ending are zero. *)
Theorem render_example_rows (ctx : list nat) (endings : list (list nat)) :
  let n := (length ctx + max_list (map length endings))%nat in
  (render_example ctx endings = None
   <-> endings = [] \/ (4 < length endings)%nat) /\
  forall tokens mask,
    render_example ctx endings = Some (tokens, mask) ->
    length tokens = 4%nat /\ length mask = 4%nat /\
    Forall (fun r => length r = n) tokens /\
    Forall (fun r => length r = n) mask /\
    (forall i e, endings !! i = Some e ->
       tokens !! i = Some (token_row ctx e n) /\
       mask !! i = Some (mask_row ctx e n) /\
       sum_list (mask_row ctx e n) = length e /\
       masked_tokens (token_row ctx e n) (mask_row ctx e n) = e) /\
    (forall i, (length endings <= i < 4)%nat ->
       tokens !! i = Some (replicate n 0%nat) /\
       mask !! i = Some (replicate n 0%nat)).
Proof.
  intros n. unfold render_example.
  destruct (decide (endings = [])) as [->|Hne].
  { split; [split; [by left | done]|]. done. }
  destruct (map (fun e => ctx ++ e) endings) as [|r0 rs] eqn:Hmap.
  { by destruct endings. }
  rewrite <- Hmap. rewrite max_list_rows by done. fold n.
  rewrite length_map.
  assert (Hn : forall e, e ∈ endings -> (length ctx + length e <= n)%nat).
  { intros e He. subst n. apply Nat.add_le_mono_l.
    apply max_list_elem_of_le. apply list_elem_of_fmap. by exists e. }
  destruct (decide (length endings <= 4)%nat) as [Hle|Hgt].
  2:{ split; [split; [intros _; right; lia | done]|]. done. }
  split. { split; [done|]. intros [?|?]; [done|lia]. }
  intros tokens mask Hsome. injection Hsome as <- <-.
  unfold write_rows. rewrite !length_app, !length_map, !length_replicate.
  split; [lia|]. split; [lia|].
  split; [|split; [|split]].
  - apply Forall_app. split; [|apply Forall_replicate, length_replicate].
    apply Forall_forall. intros r Hr.
    apply list_elem_of_fmap in Hr as (r' & -> & Hr').
    apply list_elem_of_fmap in Hr' as (e & -> & He).
    apply length_write_row. rewrite length_app. by apply Hn.
  - apply Forall_app. split; [|apply Forall_replicate, length_replicate].
    apply Forall_forall. intros r Hr.
    apply list_elem_of_fmap in Hr as (r' & -> & Hr').
    apply list_elem_of_fmap in Hr' as (e & -> & He).
    apply length_write_row. rewrite length_app, !length_replicate. by apply Hn.
  - intros i e Hi.
    assert (Hil : (i < length endings)%nat) by (by eapply lookup_lt_Some).
    rewrite !lookup_app_l by (by rewrite !length_map).
    rewrite !list_lookup_fmap, Hi. simpl.
    unfold write_row, token_row, mask_row.
    rewrite !length_app, !length_replicate, <- !app_assoc.
    replace (n - (length ctx + length e))%nat
      with (n - length ctx - length e)%nat by lia.
    repeat split.
    + rewrite !sum_list_with_app, !sum_list_replicate. lia.
    + apply (masked_tokens_row ctx e n).
  - intros i Hi.
    rewrite !lookup_app_r by (rewrite !length_map; lia).
    rewrite !length_map. split; apply lookup_replicate_2; lia.
Qed.

Lemma render_example_rows_witness :
  exists tokens mask,
    render_example [7; 8]%nat [[9]; [5; 6]]%nat = Some (tokens, mask) /\
    tokens !! 0%nat = Some [7; 8; 9; 0]%nat /\
    mask !! 0%nat = Some [0; 0; 1; 0]%nat.
Proof.
  destruct (render_example_rows [7; 8]%nat [[9]; [5; 6]]%nat) as [_ H].
  exists [[7; 8; 9; 0]; [7; 8; 5; 6]; [0; 0; 0; 0]; [0; 0; 0; 0]]%nat,
         [[0; 0; 1; 0]; [0; 0; 1; 1]; [0; 0; 0; 0]; [0; 0; 0; 0]]%nat.
  split; [reflexivity|].
  destruct (H _ _ eq_refl) as (_ & _ & _ & _ & Hrow & _).
  destruct (Hrow 0%nat [9]%nat eq_refl) as (Ht & Hm & _).
  split; [exact Ht | exact Hm].
Defined.

Lemma masked_sum_zeros (ls : list R) (k : nat) :
  vsum (zip_with (fun l mk => l * INR mk) ls (replicate k 0%nat)) = 0.
Proof.
  revert k. induction ls as [|x ls IH]; intros [|k]; try done.
  cbn [replicate zip_with]. rewrite ModelFacts.vsum_cons, IH. simpl. lra.
Qed.

Lemma masked_sum_ones (ls : list R) (k : nat) :
  length ls = k ->
  vsum (zip_with (fun l mk => l * INR mk) ls (replicate k 1%nat)) = vsum ls.
Proof.
  intros <-. induction ls as [|x ls IH]; [done|].
  cbn [length replicate zip_with]. rewrite !ModelFacts.vsum_cons, IH. simpl. lra.
Qed.

(** X18: on a row that [render_example] wrote for a non-empty context,
    the summed loss of [evaluate] is the sum, over the tokens of the
    ending, of the loss of predicting that token from the logits of the
    position before it; the context and the padding add nothing, and the
    divisor of the average is the number of tokens of the ending. *)
Theorem sum_loss_scores_ending (logits : list vec) (ctx e : list nat) (n : nat) :
  ctx <> [] -> length logits = n -> (length ctx + length e <= n)%nat ->
  sum_loss logits (token_row ctx e n) (mask_row ctx e n)
    = vsum (zip_with nll (take (length e) (drop (length ctx - 1) logits)) e) /\
  sum_list (drop 1 (mask_row ctx e n)) = length e /\
  avg_loss logits (token_row ctx e n) (mask_row ctx e n)
    = vsum (zip_with nll (take (length e) (drop (length ctx - 1) logits)) e)
      / INR (length e).
Proof.
  intros Hctx Hlen Hfit.
  destruct ctx as [|x ctx']; [done|]. clear Hctx.
  cbn [length] in *.
  replace (S (length ctx') - 1)%nat with (length ctx') by lia.
  set (c := length ctx') in *.
  set (p := (n - S c - length e)%nat).
  assert (Hmask : drop 1 (mask_row (x :: ctx') e n)
                  = replicate c 0%nat ++ replicate (length e) 1%nat
                      ++ replicate p 0%nat).
  { unfold mask_row. cbn [length replicate app drop]. by rewrite drop_0. }
  assert (Htok : drop 1 (token_row (x :: ctx') e n)
                 = ctx' ++ e ++ replicate p 0%nat).
  { unfold token_row. cbn [length app drop]. by rewrite drop_0. }
  assert (Hlog : take (length logits - 1) logits
                 = take c logits ++ take (length e) (drop c logits)
                     ++ take p (drop (c + length e) logits)).
  { rewrite <- drop_drop, !take_take_drop. f_equal. lia. }
  assert (Hsum : sum_loss logits (token_row (x :: ctx') e n)
                   (mask_row (x :: ctx') e n)
                 = vsum (zip_with nll (take (length e) (drop c logits)) e)).
  { unfold sum_loss, shift_losses. rewrite Hmask, Htok, Hlog.
    assert (L1 : length (take c logits) = length ctx')
      by (rewrite length_take; lia).
    assert (L2 : length (take (length e) (drop c logits)) = length e)
      by (rewrite length_take, length_drop; lia).
    rewrite (zip_with_app nll _ _ _ _ L1), (zip_with_app nll _ _ _ _ L2).
    rewrite zip_with_app
      by (rewrite length_zip_with, length_replicate; lia).
    rewrite zip_with_app
      by (rewrite length_zip_with, length_replicate; lia).
    rewrite !Accumulation.vsum_app, !masked_sum_zeros.
    rewrite masked_sum_ones by (rewrite length_zip_with; lia).
    lra. }
  assert (Hcnt : sum_list (drop 1 (mask_row (x :: ctx') e n)) = length e).
  { rewrite Hmask, !sum_list_with_app, !sum_list_replicate. lia. }
  split; [exact Hsum|]. split; [exact Hcnt|].
  unfold avg_loss. by rewrite Hsum, Hcnt.
Qed.

Lemma sum_loss_scores_ending_witness :
  sum_loss [[0; 0]; [0; 0]; [0; 0]] (token_row [1]%nat [0]%nat 3)
           (mask_row [1]%nat [0]%nat 3)
  = vsum (zip_with nll (take 1 (drop 0 [[0; 0]; [0; 0]; [0; 0]])) [0]%nat).
Proof.
  apply (sum_loss_scores_ending [[0; 0]; [0; 0]; [0; 0]] [1]%nat [0]%nat 3);
    [done | reflexivity | simpl; lia].
Defined.

(** [argmin] returns the first index of a least entry. *)
Lemma argmin_from_first_least (l : list R) : forall (pre : list R) (bi : nat) (b : R),
  pre !! bi = Some b ->
  (forall j x, pre !! j = Some x -> b <= x) ->
  (forall j x, (j < bi)%nat -> pre !! j = Some x -> b < x) ->
  exists m,
    (pre ++ l) !! argmin_from bi b (length pre) l = Some m /\
    (forall j x, (pre ++ l) !! j = Some x -> m <= x) /\
    (forall j x, (j < argmin_from bi b (length pre) l)%nat ->
                 (pre ++ l) !! j = Some x -> m < x).
Proof.
  induction l as [|y l IH]; intros pre bi b Hb Hle Hlt.
  - simpl. rewrite app_nil_r. eauto.
  - cbn [argmin_from].
    replace (pre ++ y :: l) with ((pre ++ [y]) ++ l) by (by rewrite <- app_assoc).
    replace (S (length pre)) with (length (pre ++ [y]))
      by (rewrite length_app; simpl; lia).
    assert (Hcases : forall j x, (pre ++ [y]) !! j = Some x ->
              pre !! j = Some x \/ (j = length pre /\ x = y)).
    { intros j x Hj. apply lookup_app_Some in Hj as [Hj|[Hj1 Hj2]]; [by left|].
      right. destruct (j - length pre)%nat as [|n] eqn:Hn; [|done].
      simpl in Hj2. injection Hj2 as <-. split; [lia|done]. }
    destruct (Rlt_dec y b) as [Hyb|Hyb].
    + apply IH.
      * by rewrite lookup_app_r, Nat.sub_diag.
      * intros j x Hj. destruct (Hcases j x Hj) as [Hp|[_ ->]]; [|lra].
        pose proof (Hle j x Hp). lra.
      * intros j x Hjl Hj. destruct (Hcases j x Hj) as [Hp|[-> _]]; [|lia].
        pose proof (Hle j x Hp). lra.
    + apply IH.
      * by apply lookup_app_l_Some.
      * intros j x Hj. destruct (Hcases j x Hj) as [Hp|[_ ->]]; [|lra].
        by apply (Hle j).
      * intros j x Hjb Hj. destruct (Hcases j x Hj) as [Hp|[-> _]].
        -- by apply (Hlt j).
        -- apply lookup_lt_Some in Hb. lia.
Qed.

Lemma argmin_first_least (l : list R) (i : nat) :
  argmin l = Some i ->
  exists m,
    l !! i = Some m /\
    (forall j x, l !! j = Some x -> m <= x) /\
    (forall j x, (j < i)%nat -> l !! j = Some x -> m < x).
Proof.
  destruct l as [|x l]; [done|]. intros Hi. injection Hi as <-.
  apply (argmin_from_first_least l [x] 0 x).
  - done.
  - intros [|j] y Hj; [|done]. injection Hj as <-. lra.
  - intros j y Hj. lia.
Qed.

Lemma lookup_map {A B : Type} (f : A -> B) (l : list A) (i : nat) :
  map f l !! i = f <$> l !! i.
Proof. apply list_lookup_fmap. Qed.

(** With one count [k] in every row, the averages are the sums divided by
    [k]. *)
Lemma rounded_avg_losses (div : R -> R -> R) (k : nat) (mask : list (list nat)) :
  Forall (fun m => sum_list (drop 1 m) = k) mask ->
  forall logits tokens,
    zip_with (fun lg tm => rounded_avg_loss div lg tm.1 tm.2) logits
      (zip tokens mask)
    = map (fun s => div s (INR k)) (sum_losses logits tokens mask).
Proof.
  unfold sum_losses.
  induction 1 as [|m mask Hm _ IH]; intros logits tokens.
  - destruct logits, tokens; reflexivity.
  - destruct logits as [|lg logits]; [reflexivity|].
    destruct tokens as [|t tokens]; [reflexivity|].
    cbn [zip_with map fst snd]. unfold zip in IH. rewrite IH.
    f_equal. unfold rounded_avg_loss. by rewrite Hm.
Qed.

(** X19: when the shifted masks of all rows count the same number [k] of
    ending tokens and the division of line 144 does not decrease when its
    dividend grows (a correctly rounded floating-point division by a
    positive [k] is such, and so is the exact one), the length-normalised
    prediction is never after the plain one: [pred_norm <= pred], and the
    row [pred] picks has the same, least, average loss as the row
    [pred_norm] picks.  The two coincide when the division keeps
    different sums apart, as the exact division does; a rounded one can
    merge two sums, and then [pred_norm] is the earlier row. *)
Theorem pred_norm_le_pred (div : R -> R -> R) (logits : list (list vec))
    (tokens mask : list (list nat)) (k p : nat) :
  (forall x y, x <= y -> div x (INR k) <= div y (INR k)) ->
  Forall (fun m => sum_list (drop 1 m) = k) mask ->
  pred logits tokens mask = Some p ->
  exists q sp sq,
    pred_norm div logits tokens mask = Some q /\ (q <= p)%nat /\
    sum_losses logits tokens mask !! p = Some sp /\
    sum_losses logits tokens mask !! q = Some sq /\
    div sq (INR k) = div sp (INR k) /\
    ((forall x y, x < y -> div x (INR k) < div y (INR k)) -> q = p).
Proof.
  intros Hmono Hall Hp. unfold pred in Hp. unfold pred_norm.
  rewrite (rounded_avg_losses div k mask Hall).
  set (sums := sum_losses logits tokens mask) in *.
  destruct (argmin_first_least sums p Hp) as (sp & Hsp & Hple & Hplt).
  destruct (argmin (map (fun s => div s (INR k)) sums)) as [q|] eqn:Hq.
  2:{ destruct sums; done. }
  destruct (argmin_first_least _ q Hq) as (mq & Hmq & Hqle & Hqlt).
  rewrite lookup_map in Hmq.
  destruct (sums !! q) as [sq|] eqn:Hsq; [|done].
  simpl in Hmq. injection Hmq as <-.
  assert (Hlp : map (fun s => div s (INR k)) sums !! p = Some (div sp (INR k)))
    by (by rewrite lookup_map, Hsp).
  assert (Heq : div sq (INR k) = div sp (INR k)).
  { apply Rle_antisym; [by apply (Hqle p)|].
    apply Hmono. by apply (Hple q). }
  assert (Hqp : (q <= p)%nat).
  { destruct (decide (q <= p)%nat) as [|Hn]; [done|].
    pose proof (Hqlt p _ ltac:(lia) Hlp). lra. }
  exists q, sp, sq. repeat split; try done.
  intros Hstrict. destruct (decide (q = p)) as [|Hne]; [done|].
  pose proof (Hplt q sq ltac:(lia) Hsq) as Hlt.
  apply Hstrict in Hlt. lra.
Qed.

Lemma pred_norm_le_pred_witness :
  exists q,
    pred_norm Rdiv [[[0; 0]; [0; 0]]; [[0; 0]; [0; 0]]]
      [[1; 0]; [1; 1]]%nat [[0; 1]; [0; 1]]%nat = Some q /\ (q <= 0)%nat.
Proof.
  destruct (pred_norm_le_pred Rdiv [[[0; 0]; [0; 0]]; [[0; 0]; [0; 0]]]
              [[1; 0]; [1; 1]]%nat [[0; 1]; [0; 1]]%nat 1 0)
    as (q & _ & _ & Hq & Hle & _).
  - intros x y Hxy. simpl. lra.
  - repeat (apply Forall_cons; split; [reflexivity|]). apply Forall_nil_2.
  - unfold pred, sum_losses, argmin. cbn [zip_with fst snd argmin_from].
    destruct (Rlt_dec _ _) as [Hlt|_]; [|reflexivity].
    exfalso. revert Hlt. unfold sum_loss, shift_losses, nll. simpl. lra.
  - exists q. split; [exact Hq | exact Hle].
Defined.

End Hellaswag.
